(** * Player-prop pricing engine: odds algebra, adjustment pipeline,
      Kelly sizing and parlay aggregation

    A shallow embedding of the quantitative core of the repository:

    - [Core]     : [src/model/core.py] (odds helpers of the main pipeline),
    - [Io]       : [model/io.py] (odds helpers of the modular pipeline),
    - [Kelly]    : [model/kelly.py] and the cap applied in [eval_yardage],
    - [Markets]  : [model/markets.py] (weather and tier wideners, Normal pricer),
    - [Features] : [model/features.py] ([adjusted_mu_sd]),
    - [Parlays]  : [model/parlays.py] ([build_parlays]).

    Numbers.  A Python [float] that holds a number is modelled by the exact
    rational it denotes ([Q]); arithmetic is exact, so the rounding error of
    binary64 is abstracted away and results are compared with [==].  The
    values the code tests for explicitly are kept: [None] and [NaN] are
    constructors of [pyval], a missing key of a pandas row is [Absent], and a
    [ZeroDivisionError] is the [None] of [pydiv].  Infinities are not
    modelled. *)

From Stdlib Require Import QArith Qround Qabs Qminmax Qpower Lqa Lia ZArith Bool List Sorted Ascii String.
From stdpp Require Import gmap strings list.
Import ListNotations.

Local Open Scope Q_scope.

(** ** Python numerics *)

Module Py.

(** An [Optional[float]] argument: [None], a NaN, or a finite number. *)
Inductive pyval : Type :=
| PNone
| PNaN
| PNum (q : Q).

(** An entry of a pandas row looked up with [row.get(key, default)]. *)
Inductive cell : Type :=
| Absent
| NaN
| Num (q : Q).

Definition Qlt_bool (x y : Q) : bool := negb (Qle_bool y x).

(** [max(a, b)] and [min(a, b)]: the first argument wins ties. *)
Definition pymax (a b : Q) : Q := if Qlt_bool a b then b else a.
Definition pymin (a b : Q) : Q := if Qlt_bool b a then b else a.

(** [x / y] on Python floats raises [ZeroDivisionError] when [y] is zero. *)
Definition pydiv (x y : Q) : option Q :=
  if Qeq_bool y 0 then None else Some (x / y).

(** [round(x)] with one argument: nearest integer, ties to the even one. *)
Definition py_round (x : Q) : Z :=
  let f := Qfloor x in
  let r := x - inject_Z f in
  if Qlt_bool r (1 # 2) then f
  else if Qlt_bool (1 # 2) r then (f + 1)%Z
  else if Z.even f then f else (f + 1)%Z.

(** [Series.clip(lo, hi)] on one entry. *)
Definition clip (lo hi x : Q) : Q :=
  if Qlt_bool x lo then lo else if Qlt_bool hi x then hi else x.

(** [np.prod]: left-to-right product, [1] on the empty array. *)
Definition prod (l : list Q) : Q := fold_left Qmult l 1.

(** [row.get(key, default)]: the default only replaces a missing key;
    a NaN entry stays NaN ([None] here). *)
Definition get (c : cell) (default : Q) : option Q :=
  match c with
  | Absent => Some default
  | NaN => None
  | Num q => Some q
  end.

(** [Series.fillna(v)] on one entry of an existing column. *)
Definition fillna (v : Q) (c : cell) : cell :=
  match c with
  | NaN => Num v
  | _ => c
  end.

(** Product of two floats either of which may be NaN. *)
Definition fmul (a b : option Q) : option Q :=
  match a, b with
  | Some x, Some y => Some (x * y)
  | _, _ => None
  end.

(** The constant [1e-6]. *)
Definition eps : Q := 1 # 1000000.

(** ASCII [str.upper()] and [str.lower()]. *)
Definition upper_ascii (c : ascii) : ascii :=
  let n := nat_of_ascii c in
  if ((97 <=? n)%nat && (n <=? 122)%nat)%bool then ascii_of_nat (n - 32) else c.

Definition lower_ascii (c : ascii) : ascii :=
  let n := nat_of_ascii c in
  if ((65 <=? n)%nat && (n <=? 90)%nat)%bool then ascii_of_nat (n + 32) else c.

Fixpoint upper (s : string) : string :=
  match s with
  | EmptyString => EmptyString
  | String c s' => String (upper_ascii c) (upper s')
  end.

Fixpoint lower (s : string) : string :=
  match s with
  | EmptyString => EmptyString
  | String c s' => String (lower_ascii c) (lower s')
  end.

Fixpoint starts_with (p s : string) : bool :=
  match p, s with
  | EmptyString, _ => true
  | String a p', String b s' => if Ascii.eqb a b then starts_with p' s' else false
  | String _ _, EmptyString => false
  end.

(** [needle in hay] on strings. *)
Fixpoint str_in (needle hay : string) : bool :=
  if starts_with needle hay then true
  else match hay with
       | EmptyString => false
       | String _ hay' => str_in needle hay'
       end.


(** [str.strip()] removes the characters for which [str.isspace()] holds;
    on ASCII these are tab, line feed, vertical tab, form feed, carriage
    return, the four separators [0x1c]-[0x1f] and the space. *)
Definition is_space (c : ascii) : bool :=
  let n := nat_of_ascii c in
  (((9 <=? n)%nat && (n <=? 13)%nat) || ((28 <=? n)%nat && (n <=? 32)%nat))%bool.

Definition is_empty (s : string) : bool :=
  match s with
  | EmptyString => true
  | String _ _ => false
  end.

Fixpoint lstrip (s : string) : string :=
  match s with
  | EmptyString => EmptyString
  | String c s' => if is_space c then lstrip s' else s
  end.

Fixpoint rstrip (s : string) : string :=
  match s with
  | EmptyString => EmptyString
  | String c s' =>
      let r := rstrip s' in
      if (is_space c && is_empty r)%bool then EmptyString else String c r
  end.

Definition strip (s : string) : string := rstrip (lstrip s).

(** [s.replace(old, new)] for a non-empty [old]: occurrences are replaced
    from the left and do not overlap.  [skip] counts the characters of an
    occurrence still to be dropped. *)
Fixpoint replace_from (old new : string) (skip : nat) (s : string) : string :=
  match s with
  | EmptyString => EmptyString
  | String c s' =>
      match skip with
      | S k => replace_from old new k s'
      | O =>
          if starts_with old s
          then String.append new (replace_from old new (String.length old - 1) s')
          else String c (replace_from old new 0 s')
      end
  end.

Definition replace (old new s : string) : string := replace_from old new 0 s.

(** [a or b] on optional strings: [None] and the empty string are falsy. *)
Definition or_str (a b : option string) : option string :=
  match a with
  | Some (String _ _) => a
  | _ => b
  end.

End Py.
Import Py.

(** ** [src/model/core.py]: odds helpers of the main pipeline *)

Module Core.

Definition american_to_prob (odds : pyval) : option Q :=
  match odds with
  | PNone => None
  | PNaN => None
  | PNum o =>
      if Qeq_bool o 0 then None
      else if Qlt_bool 0 o then Some (100 / (o + 100))
      else Some ((-1 * o) / ((-1 * o) + 100))
  end.

Definition prob_to_american (p : pyval) : option Z :=
  match p with
  | PNone => None
  | PNaN => None
  | PNum p =>
      if (Qle_bool p 0 || Qle_bool 1 p)%bool then None
      else if Qle_bool (1 # 2) p then
        let dec := p / (1 - p) in Some (py_round (-100 * dec))
      else
        let dec := (1 - p) / p in Some (py_round (100 * dec))
  end.

(** The Normal pricing step of [run]: the sd column is clipped from
    below, [p_over = 1 - norm.cdf(line, loc, scale)] and
    [p_under = 1 - p_over].  [norm_cdf] is SciPy's standard Normal CDF,
    and [norm.cdf(x, loc, scale)] evaluates it at [(x - loc) / scale]. *)
Definition run_probs (norm_cdf : Q -> Q) (model_mean model_sd line : Q) : Q * Q :=
  let model_sd := pymax model_sd eps in
  let p_over := 1 - norm_cdf ((line - model_mean) / model_sd) in
  let p_under := 1 - p_over in
  (p_over, p_under).


(** [ev_from_prob].  The outer [None] is the division by zero at a price of
    zero (a [ZeroDivisionError] on a Python float); a NaN price fails both
    tests, takes the second branch and makes the result NaN. *)
Definition ev_from_prob (price_american p : pyval) : option pyval :=
  match price_american, p with
  | PNone, _ => Some PNone
  | _, PNone => Some PNone
  | PNaN, _ => Some PNaN
  | PNum price, _ =>
      match (if Qlt_bool 0 price
             then Some (1 + (price / 100))
             else match pydiv 100 (Qabs price) with
                  | Some d => Some (1 + d)
                  | None => None
                  end) with
      | None => None
      | Some dec =>
          let prof := dec - 1 in
          match p with
          | PNum p => Some (PNum (p * prof - (1 - p) * 1))
          | _ => Some PNaN
          end
      end
  end.

(** [kelly_fraction(price_american, p)].  The range test on [p] comes
    first, so an out-of-range probability returns [None] at any price.  A
    NaN passes the range test; the fraction [f] is then NaN and
    [max(0.0, f)] keeps its first argument. *)
Definition kelly_fraction (price_american p : pyval) : option pyval :=
  match price_american, p with
  | PNone, _ => Some PNone
  | _, PNone => Some PNone
  | _, _ =>
      if match p with
         | PNum pv => (Qle_bool pv 0 || Qle_bool 1 pv)%bool
         | _ => false
         end
      then Some PNone
      else
        match price_american with
        | PNum price =>
            match (if Qlt_bool 0 price
                   then Some (price / 100)
                   else pydiv 100 (Qabs price)) with
            | None => None
            | Some b =>
                match p with
                | PNum pv =>
                    let q := 1 - pv in
                    match pydiv (b * pv - q) b with
                    | None => None
                    | Some f => Some (PNum (pymax 0 f))
                    end
                | _ => if Qeq_bool b 0 then None else Some (PNum 0)
                end
            end
        | _ => Some (PNum 0)
        end
  end.

(** Step 7 of [run]: [min(cap_straight, kelly_fraction(price, p) or 0.0)]. *)
Definition capped_kelly (cap_straight : Q) (price_american p : pyval) : option Q :=
  match kelly_fraction price_american p with
  | None => None
  | Some (PNum k) => Some (pymin cap_straight k)
  | Some PNone => Some (pymin cap_straight 0)
  | Some PNaN => Some cap_straight
  end.




Inductive side : Type := Over | Under.
Inductive tag : Type := GREEN | AMBER | RED.

(** The value of [reco_row]: ["Pass"], or the side and the colour of
    ["<side> <line> (<tag>)"]. *)
Inductive reco : Type :=
| Pass
| Bet (s : side) (t : tag).

(** [x > y] and [x >= y] on floats; both are false on a NaN ([None]). *)
Definition fgt (x y : option Q) : bool :=
  match x, y with
  | Some a, Some b => Qlt_bool b a
  | _, _ => false
  end.

Definition fge (x y : option Q) : bool :=
  match x, y with
  | Some a, Some b => Qle_bool b a
  | _, _ => false
  end.

Definition reco_row (edge_green edge_amber : Q) (edge_over edge_under : pyval) : reco :=
  match edge_over, edge_under with
  | PNone, PNone => Pass
  | _, _ =>
      let to_float v :=
        match v with
        | PNone => Some (-9)
        | PNaN => None
        | PNum q => Some q
        end in
      let eo := to_float edge_over in
      let eu := to_float edge_under in
      let (bet, edge) := if fgt eo eu then (Over, eo) else (Under, eu) in
      let t :=
        if fge edge (Some edge_green) then GREEN
        else if fge edge (Some edge_amber) then AMBER else RED in
      Bet bet t
  end.

End Core.

(** ** [model/io.py]: odds helpers of the modular pipeline *)

Module Io.

Definition american_to_decimal (odds : Q) : Q :=
  if Qlt_bool odds 0 then 1 + (100 / Qabs odds) else 1 + (odds / 100).

Definition american_to_implied (odds : Q) : Q :=
  1 / american_to_decimal odds.

Definition prob_to_american (p : Q) : Z :=
  let p := pymin (pymax p eps) (1 - eps) in
  if Qle_bool (1 # 2) p then py_round (-100 * (p / (1 - p)))
  else py_round (100 * ((1 - p) / p)).

Definition devig_two_way (p_over p_under : Q) : option Q * option Q :=
  let s := p_over + p_under in
  if Qle_bool s 0 then (None, None)
  else (Some (p_over / s), Some (p_under / s)).

End Io.

(** ** [model/kelly.py] and the cap of [eval_yardage] *)

Module Kelly.

(** [None] is the [ZeroDivisionError] raised at a price of zero. *)
Definition kelly_fraction (p american_odds : Q) : option Q :=
  match (if Qlt_bool 0 american_odds
         then Some (american_odds / 100)
         else pydiv 100 (Qabs american_odds)) with
  | None => None
  | Some b =>
      let q := 1 - p in
      match pydiv (b * p - q) b with
      | None => None
      | Some f => Some (pymax 0 f)
      end
  end.

(** [kelly = kelly_fraction(p, price); kelly = min(kelly, kcap)]. *)
Definition capped_kelly (p american_odds kcap : Q) : option Q :=
  match kelly_fraction p american_odds with
  | None => None
  | Some kelly => Some (pymin kelly kcap)
  end.

End Kelly.

(** ** Configuration ([config.yaml]) *)

Module Cfg.

(** [cfg["volatility"]]. *)
Record volatility : Type := {
  wind_threshold_mph : Q;
  wind_sd_widen : Q;
  cold_threshold_f : Q;
  cold_sd_widen : Q;
  widen_sd_if_pressure_top10 : Q;
  widen_sd_if_qb_lowtier : Q
}.

(** One entry of [cfg["parlays"]["buckets"]]. *)
Record bucket : Type := {
  name : string;
  min_edge_pct : Q;
  max_legs : Z
}.

(** [cfg["parlays"]]. *)
Record parlays : Type := {
  correlation_penalty : Q;
  buckets : list bucket
}.



End Cfg.

(** ** [model/markets.py] *)

Module Markets.

(** [temp_f] and [wind_mph] arrive as floats; [None] stands for a value
    that is [None] or NaN, on which both tests are false. *)
Definition weather_penalty (temp_f wind_mph : option Q) (cfg : Cfg.volatility) : Q :=
  let wth := Cfg.wind_threshold_mph cfg in
  let widen := 1 in
  let widen :=
    match wind_mph with
    | Some w => if Qle_bool wth w then widen * (1 + Cfg.wind_sd_widen cfg) else widen
    | None => widen
    end in
  let widen :=
    match temp_f with
    | Some t =>
        if Qle_bool t (Cfg.cold_threshold_f cfg)
        then widen * (1 + Cfg.cold_sd_widen cfg) else widen
    | None => widen
    end in
  widen.

Definition widen_for_pressure (is_top10_pressure : bool) (sd : Q) (cfg : Cfg.volatility) : Q :=
  sd * (1 + (if is_top10_pressure then Cfg.widen_sd_if_pressure_top10 cfg else 0)).

Definition widen_for_low_qb (low_tier_qb : bool) (sd : Q) (cfg : Cfg.volatility) : Q :=
  sd * (1 + (if low_tier_qb then Cfg.widen_sd_if_qb_lowtier cfg else 0)).

(** [norm_cdf] is SciPy's [norm.cdf], the standard Normal CDF. *)
Definition yardage_probs (norm_cdf : Q -> Q) (mean sd line : Q) : Q * Q :=
  let z := (line - mean) / pymax sd eps in
  let p_under := norm_cdf z in
  let p_over := 1 - p_under in
  (p_over, p_under).

End Markets.

(** ** [model/features.py] *)

Module Features.

(** The fields of a merged frame row that [adjusted_mu_sd] reads.  The
    [mean] and [sd] columns always exist after the merge with the priors
    ([None] is NaN); the entries read with [row.get] may be absent. *)
Record row : Type := {
  mean : option Q;
  sd : option Q;
  team : string;
  player : string;
  market : string;
  opp : option string;
  snap_adj : cell;
  share_adj : cell;
  temp_f : cell;
  wind_mph : cell
}.

(** [load_feed_mods]: three team-factor dictionaries and two flag sets. *)
Record mods : Type := {
  pace : gmap string Q;
  proe : gmap string Q;
  off_epa : gmap string Q;
  top10_pressure : gset string;
  low_tier_qb : gset string
}.

(** Lines 7-8 of [attach_context]: [fillna(1.0)] on the two usage columns. *)
Definition fill_usage (r : row) : row :=
  {| mean := mean r; sd := sd r; team := team r; player := player r;
     market := market r; opp := opp r;
     snap_adj := fillna 1 (snap_adj r);
     share_adj := fillna 1 (share_adj r);
     temp_f := temp_f r; wind_mph := wind_mph r |}.

Definition of_float (x : option Q) : pyval :=
  match x with
  | Some q => PNum q
  | None => PNaN
  end.

Definition adjusted_mu_sd (r : row) (m : mods) (cfg : Cfg.volatility) : pyval * pyval :=
  match mean r, sd r with
  | Some mu, Some sd0 =>
      (* Team factors *)
      let t := upper (team r) in
      let team_factor := 1 in
      let team_factor := team_factor * default 1 (pace m !! t) in
      let team_factor := team_factor * default 1 (proe m !! t) in
      let team_factor := team_factor * default 1 (off_epa m !! t) in
      let mu :=
        fmul (Some mu)
             (fmul (fmul (Some team_factor) (get (snap_adj r) 1))
                   (get (share_adj r) 1)) in
      (* Weather widener *)
      let wx_widen :=
        Markets.weather_penalty (get (temp_f r) 55) (get (wind_mph r) 0) cfg in
      let sd1 := sd0 * wx_widen in
      (* Pressure / QB tier wideners *)
      let opp := upper (default EmptyString (opp r)) in
      let sd2 :=
        Markets.widen_for_pressure (bool_decide (opp ∈ top10_pressure m)) sd1 cfg in
      let low_qb :=
        if str_in "passing" (lower (market r))
        then bool_decide (upper (player r) ∈ low_tier_qb m)
        else false in
      let sd3 := Markets.widen_for_low_qb low_qb sd2 cfg in
      (of_float mu, PNum sd3)
  | _, _ => (PNone, PNone)
  end.

End Features.

(** ** [model/parlays.py] *)

(** A row of the priced frame [pred_df], as [build_parlays] reads it. *)
Module Pred.

Record row : Type := {
  player : string;
  market : string;
  side : string;
  line : Q;
  book_odds_american : Z;
  edge_pct : Q;
  side_prob : Q;
  decimal_odds : Q
}.

End Pred.

Module Parlays.

(** One row of the returned frame.  [legs] keeps the chosen rows in
    order; the frame stores their renderings joined by [" | "], and the
    empty string for no legs. *)
Record result : Type := {
  bucket : string;
  legs : list Pred.row;
  parlay_prob : Q;
  decimal_odds : Q;
  ev_per_unit : Q
}.

(** The threshold compared with the [edge_pct] column. *)
Definition min_edge (b : Cfg.bucket) : Q :=
  if Qlt_bool (Cfg.min_edge_pct b) 1
  then 100 * Cfg.min_edge_pct b
  else Cfg.min_edge_pct b.

(** [pred_df[pred_df["edge_pct"] >= min_edge]]. *)
Definition meets (b : Cfg.bucket) (pred_df : list Pred.row) : list Pred.row :=
  List.filter (fun r => Qle_bool (min_edge b) (Pred.edge_pct r)) pred_df.

(** [sort_values("edge_pct", ascending=False)], as an insertion sort that
    keeps rows of equal edge in frame order. *)
Fixpoint insert_desc (x : Pred.row) (l : list Pred.row) : list Pred.row :=
  match l with
  | [] => [x]
  | y :: ys =>
      if Qlt_bool (Pred.edge_pct x) (Pred.edge_pct y)
      then y :: insert_desc x ys
      else x :: y :: ys
  end.

Definition sort_desc (l : list Pred.row) : list Pred.row :=
  fold_right insert_desc [] l.

(** [DataFrame.head(n)]: the first [n] rows, or all but the last [-n]
    rows when [n] is negative. *)
Definition df_head {A : Type} (n : Z) (l : list A) : list A :=
  if (0 <=? n)%Z then firstn (Z.to_nat n) l
  else firstn (length l - Z.to_nat (- n)) l.

Definition pool (b : Cfg.bucket) (pred_df : list Pred.row) : list Pred.row :=
  df_head 40 (sort_desc (meets b pred_df)).

Definition chosen (b : Cfg.bucket) (pred_df : list Pred.row) : list Pred.row :=
  df_head (Cfg.max_legs b) (pool b pred_df).

(** The body of the loop over the buckets. *)
Definition parlay_of (pred_df : list Pred.row) (pen : Q) (b : Cfg.bucket) : result :=
  match pool b pred_df with
  | [] =>
      {| bucket := Cfg.name b; legs := []; parlay_prob := 0;
         decimal_odds := 1; ev_per_unit := -1 |}
  | _ :: _ =>
      let legs := chosen b pred_df in
      let probs :=
        List.map (fun r => clip (1 # 1000) (999 # 1000) (Pred.side_prob r) * pen) legs in
      let parlay_prob := prod probs in
      let dec_odds := prod (List.map Pred.decimal_odds legs) in
      let ev := parlay_prob * dec_odds - 1 in
      {| bucket := Cfg.name b; legs := legs; parlay_prob := parlay_prob;
         decimal_odds := dec_odds; ev_per_unit := ev |}
  end.

Definition build_parlays (pred_df : list Pred.row) (cfg : Cfg.parlays) : list result :=
  let pen := Cfg.correlation_penalty cfg in
  List.map (parlay_of pred_df pen) (Cfg.buckets cfg).

End Parlays.

(** ** [model/pricing.py] *)

Module Pricing.

(** [price_row]: the side's probability (NaN is [None]), its fair price,
    the implied probability of the book price and the edge. *)
Definition price_row (side : string) (p_over p_under : option Q)
    (odds_over odds_under : Q) : option Q * option Z * Q * option Q :=
  let p := if String.eqb side "Over" then p_over else p_under in
  let fair :=
    match p with
    | Some pv => Some (Io.prob_to_american pv)
    | None => None
    end in
  let imp :=
    Io.american_to_implied (if String.eqb side "Over" then odds_over else odds_under) in
  let edge :=
    match p with
    | Some pv => Some (pv - imp)
    | None => None
    end in
  (p, fair, imp, edge).


End Pricing.

(** ** [model/core.py]: the modular pipeline *)

Module Pipeline.

Definition market_key (m : string) : string :=
  let m := lower m in
  if (str_in "receiving" m && str_in "yard" m)%bool then "receiving_yards"
  else if str_in "receptions" m then "receptions"
  else if (str_in "rushing" m && str_in "yard" m)%bool then "rushing_yards"
  else if (str_in "rush" m && str_in "att" m)%bool then "rush_attempts"
  else if (str_in "passing" m && str_in "yard" m)%bool then "passing_yards"
  else if (str_in "anytime" m && str_in "td" m)%bool then "anytime_td"
  else "other".


End Pipeline.

(** ** [scrapers/odds_providers.py] *)

Module Scrapers.

(** The JSON objects of the odds feed; every key is read with [.get]. *)
Record outcome : Type := {
  description : option string;
  player : option string;
  name : option string;
  price : option Z;
  point : option Q
}.

Record market : Type := {
  market_key : option string;
  outcomes : option (list outcome)
}.

Record bookmaker : Type := {
  book_key : option string;
  markets : option (list market)
}.

Record event : Type := {
  home_team : option string;
  teams : option (list string);
  bookmakers : option (list bookmaker)
}.

(** A row of the straight and alt frames. *)
Record row : Type := {
  game_id : string;
  row_player : string;
  team : string;
  row_market : string;
  line : Q;
  odds_over : option Z;
  odds_under : option Z;
  book : string
}.

Definition _extract_game_id (ev : event) : string :=
  let home := upper (default EmptyString (home_team ev)) in
  let teams := default [] (teams ev) in
  let away := List.filter (fun t => negb (String.eqb (upper t) (upper home))) teams in
  let away :=
    match away with
    | t :: _ => upper t
    | [] => EmptyString
    end in
  String.append away (String.append "@" home).

(** The dictionary [by_player], in insertion order.  Its keys are the
    pairs [(player, float(point))]; two keys are the same when the names
    are equal and the points are equal as numbers. *)
Definition key_eqb (k1 k2 : string * Q) : bool :=
  (String.eqb (fst k1) (fst k2) && Qeq_bool (snd k1) (snd k2))%bool.

Definition prices : Type := (option Z * option Z)%type.

(** [setdefault(key, {"over": None, "under": None})] followed by the
    update [f] of the entry. *)
Fixpoint upsert (key : string * Q) (f : prices -> prices)
    (d : list ((string * Q) * prices)) : list ((string * Q) * prices) :=
  match d with
  | [] => [(key, f (None, None))]
  | (k, v) :: d' =>
      if key_eqb key k then (k, f v) :: d' else (k, v) :: upsert key f d'
  end.

(** One turn of the loop over the outcomes. *)
Definition add_outcome (by_player : list ((string * Q) * prices)) (o : outcome)
    : list ((string * Q) * prices) :=
  let player :=
    strip (default EmptyString
             (or_str (or_str (description o) (player o)) (name o))) in
  let side := lower (strip (default EmptyString (or_str (name o) None))) in
  match price o, point o with
  | Some price, Some point =>
      if is_empty player then by_player
      else
        let key := (player, point) in
        if str_in "over" (lower side)
        then upsert key (fun v => (Some price, snd v)) by_player
        else if str_in "under" (lower side)
        then upsert key (fun v => (fst v, Some price)) by_player
        else upsert key (fun v => v) by_player
  | _, _ => by_player
  end.

(** [counts[player]]: the number of keys of [by_player] with that name. *)
Definition count_player (player : string) (by_player : list ((string * Q) * prices)) : nat :=
  length (List.filter (fun e => String.eqb (fst (fst e)) player) by_player).

Definition make_row (game_id book model_market : string)
    (e : (string * Q) * prices) : row :=
  {| game_id := game_id; row_player := fst (fst e); team := EmptyString;
     row_market := model_market; line := snd (fst e);
     odds_over := fst (snd e); odds_under := snd (snd e); book := book |}.

(** The body of the loop over the markets of one bookmaker: the rows
    appended to [rows_main] and to [rows_alt]. *)
Definition rows_of_outcomes (game_id book model_market : string)
    (outs : list outcome) : list row * list row :=
  let by_player := fold_left add_outcome outs [] in
  let is_alt e := (1 <? count_player (fst (fst e)) by_player)%nat in
  (List.map (make_row game_id book model_market)
     (List.filter (fun e => negb (is_alt e)) by_player),
   List.map (make_row game_id book model_market)
     (List.filter is_alt by_player)).



End Scrapers.

(** ** Reference formulas of the specification *)

Module Spec.

(** "Product over the chosen legs of [f]", as the specification words the
    combined probability and the combined decimal odds. *)
Definition product_over {A : Type} (f : A -> Q) (l : list A) : Q :=
  fold_right (fun x acc => f x * acc) 1 l.

(** "The decimal profit multiplier [b]: [price/100] if positive, else
    [100/|price|]". *)
Definition profit_multiplier (price : Q) : Q :=
  if Qlt_bool 0 price then price / 100 else 100 / Qabs price.

End Spec.

(** ** Worked inputs *)

Module Scenario.

(** A cold outdoor game: a passing-yards prior for a quarterback that the
    feed flags low-tier, against a top-ten pressure defence. *)
Definition vol : Cfg.volatility :=
  {| Cfg.wind_threshold_mph := 15; Cfg.wind_sd_widen := 5 # 100;
     Cfg.cold_threshold_f := 32; Cfg.cold_sd_widen := 3 # 100;
     Cfg.widen_sd_if_pressure_top10 := 4 # 100;
     Cfg.widen_sd_if_qb_lowtier := 6 # 100 |}.

Definition feed : Features.mods :=
  {| Features.pace := {[ "KC" := 21 # 20 ]};
     Features.proe := ∅;
     Features.off_epa := {[ "KC" := 11 # 10 ]};
     Features.top10_pressure := {[ "DEN" ]};
     Features.low_tier_qb := {[ "P. MAHOMES" ]} |}.

Definition passing_row : Features.row :=
  {| Features.mean := Some 250; Features.sd := Some 45;
     Features.team := "kc"; Features.player := "P. Mahomes";
     Features.market := "Passing Yards"; Features.opp := Some "den";
     Features.snap_adj := Num (9 # 10); Features.share_adj := NaN;
     Features.temp_f := Num 20; Features.wind_mph := Absent |}.

(** Two priced sides with decimal odds 2.0 and 1.8 and win probabilities
    0.55 and 0.5, both above a two-percent bucket. *)
Definition leg_a : Pred.row :=
  {| Pred.player := "A"; Pred.market := "receiving_yards"; Pred.side := "Over";
     Pred.line := 111 # 2; Pred.book_odds_american := 100;
     Pred.edge_pct := 5; Pred.side_prob := 55 # 100; Pred.decimal_odds := 2 |}.

Definition leg_b : Pred.row :=
  {| Pred.player := "B"; Pred.market := "rushing_yards"; Pred.side := "Under";
     Pred.line := 141 # 2; Pred.book_odds_american := (-125);
     Pred.edge_pct := 4; Pred.side_prob := 1 # 2; Pred.decimal_odds := 18 # 10 |}.

(** A side the model takes for certain. *)
Definition leg_sure : Pred.row :=
  {| Pred.player := "C"; Pred.market := "receptions"; Pred.side := "Over";
     Pred.line := 1 # 2; Pred.book_odds_american := (-110);
     Pred.edge_pct := 40; Pred.side_prob := 1; Pred.decimal_odds := 21 # 11 |}.

Definition two_leg : Cfg.bucket :=
  {| Cfg.name := "two_leg"; Cfg.min_edge_pct := 2 # 100; Cfg.max_legs := 2 |}.

Definition strict : Cfg.bucket :=
  {| Cfg.name := "strict"; Cfg.min_edge_pct := 50; Cfg.max_legs := 3 |}.

End Scenario.

(** * Properties *)

(** ** Comparisons, [max], [min] and [round] *)

Lemma Qlt_bool_iff (x y : Q) : Qlt_bool x y = true <-> x < y.
Proof.
  unfold Qlt_bool. rewrite negb_true_iff.
  destruct (Qle_bool y x) eqn:E.
  - apply Qle_bool_iff in E. split; [discriminate | intros H; lra].
  - split; [intros _ | reflexivity].
    apply Qnot_le_lt. intros H. apply Qle_bool_iff in H. congruence.
Qed.

Lemma Qlt_bool_false (x y : Q) : Qlt_bool x y = false <-> y <= x.
Proof.
  unfold Qlt_bool. rewrite negb_false_iff. apply Qle_bool_iff.
Qed.

Lemma Qle_bool_false (x y : Q) : Qle_bool x y = false <-> y < x.
Proof.
  destruct (Qle_bool x y) eqn:E.
  - apply Qle_bool_iff in E. split; [discriminate | intros H; lra].
  - split; [intros _ | reflexivity].
    apply Qnot_le_lt. intros H. apply Qle_bool_iff in H. congruence.
Qed.

Lemma Qeq_bool_false (x y : Q) : Qeq_bool x y = false <-> ~ x == y.
Proof.
  destruct (Qeq_bool x y) eqn:E.
  - apply Qeq_bool_iff in E. split; [discriminate | tauto].
  - split; [| reflexivity]. intros _ H. apply Qeq_bool_iff in H. congruence.
Qed.

(** Case analysis on the boolean tests of the embedding, leaving the
    order facts in the context. *)
Ltac cmp_cases :=
  repeat match goal with
    | |- context [Qlt_bool ?a ?b] =>
        let E := fresh "E" in
        destruct (Qlt_bool a b) eqn:E;
        [apply Qlt_bool_iff in E | apply Qlt_bool_false in E]
    | |- context [Qle_bool ?a ?b] =>
        let E := fresh "E" in
        destruct (Qle_bool a b) eqn:E;
        [apply Qle_bool_iff in E | apply Qle_bool_false in E]
    | |- context [Qeq_bool ?a ?b] =>
        let E := fresh "E" in
        destruct (Qeq_bool a b) eqn:E;
        [apply Qeq_bool_iff in E | apply Qeq_bool_false in E]
    end.

#[global] Instance Qlt_bool_comp : Proper (Qeq ==> Qeq ==> eq) Qlt_bool.
Proof.
  intros x x' Hx y y' Hy. unfold Qlt_bool. now rewrite Hx, Hy.
Qed.

#[global] Instance pymax_comp : Proper (Qeq ==> Qeq ==> Qeq) pymax.
Proof.
  intros x x' Hx y y' Hy. unfold pymax. rewrite Hx, Hy.
  destruct (Qlt_bool x' y'); assumption.
Qed.

#[global] Instance pymin_comp : Proper (Qeq ==> Qeq ==> Qeq) pymin.
Proof.
  intros x x' Hx y y' Hy. unfold pymin. rewrite Hx, Hy.
  destruct (Qlt_bool y' x'); assumption.
Qed.

#[global] Instance py_round_comp : Proper (Qeq ==> eq) py_round.
Proof.
  intros x y H. unfold py_round.
  assert (Hf : Qfloor x = Qfloor y) by now rewrite H.
  rewrite Hf.
  assert (Hr : x - inject_Z (Qfloor y) == y - inject_Z (Qfloor y)) by now rewrite H.
  now rewrite !Hr.
Qed.

Lemma pymax_spec (a b : Q) : a <= pymax a b /\ b <= pymax a b /\ (pymax a b = a \/ pymax a b = b).
Proof. unfold pymax. cmp_cases; repeat split; auto; lra. Qed.

Lemma pymin_spec (a b : Q) : pymin a b <= a /\ pymin a b <= b /\ (pymin a b = a \/ pymin a b = b).
Proof. unfold pymin. cmp_cases; repeat split; auto; lra. Qed.

Lemma pymax_l (a b : Q) : b <= a -> pymax a b = a.
Proof. intros H. unfold pymax. cmp_cases; [lra | reflexivity]. Qed.

Lemma pymin_l (a b : Q) : a <= b -> pymin a b = a.
Proof. intros H. unfold pymin. cmp_cases; [lra | reflexivity]. Qed.

(** [round] lands within one half of its argument. *)
Lemma py_round_near (x : Q) :
  x - (1 # 2) <= inject_Z (py_round x) <= x + (1 # 2).
Proof.
  unfold py_round.
  pose proof (Qfloor_le x) as Hlo. pose proof (Qlt_floor x) as Hhi.
  rewrite inject_Z_plus in Hhi. change (inject_Z 1) with 1 in Hhi.
  cmp_cases; [lra | rewrite inject_Z_plus; change (inject_Z 1) with 1; lra |].
  destruct (Z.even (Qfloor x));
    [| rewrite inject_Z_plus; change (inject_Z 1) with 1]; lra.
Qed.

Lemma py_round_Z (z : Z) : py_round (inject_Z z) = z.
Proof.
  unfold py_round. rewrite Qfloor_Z.
  cmp_cases; [reflexivity | lra | lra].
Qed.

(** ** OddsMath *)

Section OddsMath.

Variable o : Q.

Lemma american_to_prob_pos :
  0 < o -> Core.american_to_prob (PNum o) = Some (100 / (o + 100)).
Proof.
  intros H. unfold Core.american_to_prob.
  cmp_cases; first [reflexivity | exfalso; lra].
Qed.

Lemma american_to_prob_neg :
  o < 0 -> Core.american_to_prob (PNum o) = Some ((-1 * o) / ((-1 * o) + 100)).
Proof.
  intros H. unfold Core.american_to_prob.
  cmp_cases; first [reflexivity | exfalso; lra].
Qed.

Lemma american_to_implied_pos :
  0 <= o -> Io.american_to_implied o == 100 / (o + 100).
Proof.
  intros H. unfold Io.american_to_implied, Io.american_to_decimal.
  cmp_cases; [lra |]. field. lra.
Qed.

Lemma american_to_implied_neg :
  o < 0 -> Io.american_to_implied o == (- o) / ((- o) + 100).
Proof.
  intros H. unfold Io.american_to_implied, Io.american_to_decimal.
  cmp_cases; [| lra].
  rewrite (Qabs_neg o) by lra. field. split; lra.
Qed.

Lemma prob_pos_range : 0 < o -> 0 < 100 / (o + 100) < 1.
Proof.
  intros H. split; [apply Qlt_shift_div_l | apply Qlt_shift_div_r]; lra.
Qed.

Lemma prob_neg_range : o < 0 -> 0 < (-1 * o) / ((-1 * o) + 100) < 1.
Proof.
  intros H. split; [apply Qlt_shift_div_l | apply Qlt_shift_div_r]; lra.
Qed.

Lemma prob_pos_half : 100 < o -> 100 / (o + 100) < 1 # 2.
Proof. intros H. apply Qlt_shift_div_r; lra. Qed.

Lemma prob_neg_half : o <= -100 -> 1 # 2 <= (-1 * o) / ((-1 * o) + 100).
Proof. intros H. apply Qle_shift_div_l; lra. Qed.

Lemma prob_pos_floor : 0 < o -> o <= 99999900 -> eps <= 100 / (o + 100).
Proof. intros H H'. unfold eps. apply Qle_shift_div_l; lra. Qed.

Lemma prob_neg_ceil :
  o < 0 -> -99999900 <= o -> (-1 * o) / ((-1 * o) + 100) <= 1 - eps.
Proof. intros H H'. unfold eps. apply Qle_shift_div_r; lra. Qed.

End OddsMath.

(** C1 (as the code has it).  [american_to_prob] returns [100/(o+100)] for
    every finite [o > 0] and [(-o)/((-o)+100)] for every [o < 0], so also
    for prices strictly between -100 and 100; it is absent exactly when the
    price is zero, NaN or [None].  [american_to_implied] computes the same
    number for every non-zero price and never fails. *)
Theorem american_to_prob_cases (o : Q) :
  (0 < o ->
   exists r, Core.american_to_prob (PNum o) = Some r /\
             r == 100 / (o + 100) /\ Io.american_to_implied o == r) /\
  (o < 0 ->
   exists r, Core.american_to_prob (PNum o) = Some r /\
             r == (- o) / ((- o) + 100) /\ Io.american_to_implied o == r) /\
  (Core.american_to_prob (PNum o) = None <-> o == 0) /\
  Core.american_to_prob PNaN = None /\
  Core.american_to_prob PNone = None.
Proof.
  repeat split.
  - intros H. eexists. split; [apply american_to_prob_pos; exact H |].
    split; [reflexivity | apply american_to_implied_pos; lra].
  - intros H. eexists. split; [apply american_to_prob_neg; exact H |].
    split; [field; lra |].
    rewrite american_to_implied_neg by exact H. field. lra.
  - unfold Core.american_to_prob.
    cmp_cases; intros Hn; first [assumption | discriminate].
  - intros H. unfold Core.american_to_prob. apply Qeq_bool_iff in H. now rewrite H.
Qed.

Lemma american_to_prob_cases_witness :
  exists r, Core.american_to_prob (PNum 150) = Some r /\
            r == 100 / (150 + 100) /\ Io.american_to_implied 150 == r.
Proof.
  apply (proj1 (american_to_prob_cases 150)). reflexivity.
Defined.

(** C1 (as stated) fails: a price of +50 lies strictly between -100 and 100
    and is still converted to a number, two thirds, by both helpers. *)
Lemma american_to_prob_accepts_50 :
  (-100 < 50 /\ 50 < 100) /\
  Core.american_to_prob (PNum 50) = Some (100 / (50 + 100)) /\
  100 / (50 + 100) == 2 # 3 /\
  Io.american_to_implied 50 == 2 # 3.
Proof.
  repeat split.
Qed.

(** ** Devigger *)

(** C7.  [devig_two_way] divides each side by the sum when the sum is
    positive, returns the absent pair when it is not, and sends two equal
    positive probabilities to one half each. *)
Theorem devig_two_way_spec (p_a p_b : Q) :
  (0 < p_a + p_b ->
   Io.devig_two_way p_a p_b = (Some (p_a / (p_a + p_b)), Some (p_b / (p_a + p_b)))) /\
  (p_a + p_b <= 0 -> Io.devig_two_way p_a p_b = (None, None)) /\
  (0 < p_a ->
   exists a b, Io.devig_two_way p_a p_a = (Some a, Some b) /\
               a == 1 # 2 /\ b == 1 # 2).
Proof.
  unfold Io.devig_two_way. repeat split.
  - intros H. cmp_cases; [exfalso; lra | reflexivity].
  - intros H. cmp_cases; [reflexivity | exfalso; lra].
  - intros H. cmp_cases; [exfalso; lra |].
    do 2 eexists. split; [reflexivity |]. split; field; lra.
Qed.

Lemma devig_two_way_spec_witness :
  Io.devig_two_way (11 # 21) (11 # 21) =
    (Some ((11 # 21) / ((11 # 21) + (11 # 21))), Some ((11 # 21) / ((11 # 21) + (11 # 21)))) /\
  Io.devig_two_way 0 0 = (None, None).
Proof.
  split.
  - apply (proj1 (devig_two_way_spec (11 # 21) (11 # 21))). reflexivity.
  - apply (proj1 (proj2 (devig_two_way_spec 0 0))). discriminate.
Defined.

(** ** Round trip through the implied probability *)

Section RoundTrip.

Variable o : Q.

(** The underdog branch recovers a positive price other than +100. *)
Lemma core_round_trip_pos :
  100 < o ->
  exists z, Core.prob_to_american (PNum (100 / (o + 100))) = Some z /\
            Qabs (inject_Z z - o) <= 1 # 2.
Proof.
  intros H.
  assert (H0 : 0 < o) by lra.
  pose proof (prob_pos_range o H0) as [Hp0 Hp1].
  pose proof (prob_pos_half o H) as Hh.
  unfold Core.prob_to_american.
  cmp_cases; cbn [orb]; try (exfalso; lra).
  eexists. split; [reflexivity |].
  apply Qabs_Qle_condition.
  match goal with |- context [py_round ?x] =>
    pose proof (py_round_near x) as Hr;
    assert (Hx : x == o) by (field; lra)
  end.
  lra.
Qed.

(** The favourite branch recovers every price at or below -100. *)
Lemma core_round_trip_neg :
  o <= -100 ->
  exists z, Core.prob_to_american (PNum ((-1 * o) / ((-1 * o) + 100))) = Some z /\
            Qabs (inject_Z z - o) <= 1 # 2.
Proof.
  intros H.
  assert (H0 : o < 0) by lra.
  pose proof (prob_neg_range o H0) as [Hp0 Hp1].
  pose proof (prob_neg_half o H) as Hh.
  unfold Core.prob_to_american.
  cmp_cases; cbn [orb]; try (exfalso; lra).
  eexists. split; [reflexivity |].
  apply Qabs_Qle_condition.
  match goal with |- context [py_round ?x] =>
    pose proof (py_round_near x) as Hr;
    assert (Hx : x == o) by (field; lra)
  end.
  lra.
Qed.

End RoundTrip.

#[global] Instance io_prob_to_american_comp : Proper (Qeq ==> eq) Io.prob_to_american.
Proof.
  intros x y H. unfold Io.prob_to_american.
  assert (Hc : pymin (pymax x eps) (1 - eps) == pymin (pymax y eps) (1 - eps))
    by now rewrite H.
  cbv zeta. rewrite Hc.
  destruct (Qle_bool (1 # 2) (pymin (pymax y eps) (1 - eps)));
    apply py_round_comp; now rewrite Hc.
Qed.

(** Inside the clamp of [io.prob_to_american] the function is the plain
    two-branch formula. *)
Lemma io_prob_to_american_inside (p : Q) :
  eps <= p -> p <= 1 - eps ->
  Io.prob_to_american p =
    if Qle_bool (1 # 2) p then py_round (-100 * (p / (1 - p)))
    else py_round (100 * ((1 - p) / p)).
Proof.
  intros Hlo Hhi. unfold Io.prob_to_american. cbv zeta.
  rewrite (pymax_l p eps) by exact Hlo.
  rewrite (pymin_l p (1 - eps)) by exact Hhi.
  reflexivity.
Qed.

Section RoundTripIo.

Variable o : Q.

Lemma io_round_trip_pos :
  100 < o -> o <= 99999900 ->
  Qabs (inject_Z (Io.prob_to_american (Io.american_to_implied o)) - o) <= 1 # 2.
Proof.
  intros H Hmax.
  assert (H0 : 0 < o) by lra.
  rewrite (american_to_implied_pos o) by lra.
  pose proof (prob_pos_range o H0) as [Hp0 Hp1].
  pose proof (prob_pos_half o H) as Hh.
  pose proof (prob_pos_floor o H0 Hmax) as Hfl.
  rewrite io_prob_to_american_inside; [| exact Hfl | unfold eps; lra].
  cmp_cases; [exfalso; lra |].
  apply Qabs_Qle_condition.
  match goal with |- context [py_round ?x] =>
    pose proof (py_round_near x) as Hr;
    assert (Hx : x == o) by (field; lra)
  end.
  lra.
Qed.

Lemma io_round_trip_neg :
  o <= -100 -> -99999900 <= o ->
  Qabs (inject_Z (Io.prob_to_american (Io.american_to_implied o)) - o) <= 1 # 2.
Proof.
  intros H Hmin.
  assert (H0 : o < 0) by lra.
  assert (Hi : Io.american_to_implied o == (-1 * o) / ((-1 * o) + 100)).
  { rewrite american_to_implied_neg by exact H0. field. lra. }
  rewrite Hi.
  pose proof (prob_neg_range o H0) as [Hp0 Hp1].
  pose proof (prob_neg_half o H) as Hh.
  pose proof (prob_neg_ceil o H0 Hmin) as Hce.
  rewrite io_prob_to_american_inside; [| unfold eps; lra | exact Hce].
  cmp_cases; [| exfalso; lra].
  apply Qabs_Qle_condition.
  match goal with |- context [py_round ?x] =>
    pose proof (py_round_near x) as Hr;
    assert (Hx : x == o) by (field; lra)
  end.
  lra.
Qed.

(** At even money the favourite branch is taken: +100 comes back as -100. *)
Lemma round_trip_even_money :
  o == 100 ->
  Core.prob_to_american (PNum (100 / (o + 100))) = Some (-100)%Z /\
  Io.prob_to_american (Io.american_to_implied o) = (-100)%Z.
Proof.
  intros H.
  assert (Hp : 100 / (o + 100) == 1 # 2) by (rewrite H; reflexivity).
  split.
  - unfold Core.prob_to_american.
    cmp_cases; cbn [orb]; try (exfalso; lra).
    f_equal. rewrite <- (py_round_Z (-100)). apply py_round_comp.
    rewrite Hp. reflexivity.
  - rewrite (american_to_implied_pos o) by lra.
    rewrite Hp. reflexivity.
Qed.

End RoundTripIo.

(** C8 (as the code has it).  For every price with [|o| >= 100] the implied
    probability lies strictly between 0 and 1; for every such price other
    than +100 the fair price of that probability is within one half of [o]
    (for the clamped [io.prob_to_american], as long as
    [|o| <= 99,999,900], where the clamp to [1e-6] is not reached); at
    [o = +100] the probability is one half and both helpers return -100. *)
Theorem american_round_trip (o : Q) :
  100 <= o \/ o <= -100 ->
  exists p,
    Core.american_to_prob (PNum o) = Some p /\
    Io.american_to_implied o == p /\
    (0 < p /\ p < 1) /\
    (~ o == 100 ->
     exists z, Core.prob_to_american (PNum p) = Some z /\
               Qabs (inject_Z z - o) <= 1 # 2) /\
    (~ o == 100 -> Qabs o <= 99999900 ->
     Qabs (inject_Z (Io.prob_to_american (Io.american_to_implied o)) - o) <= 1 # 2) /\
    (o == 100 ->
     Core.prob_to_american (PNum p) = Some (-100)%Z /\
     Io.prob_to_american (Io.american_to_implied o) = (-100)%Z).
Proof.
  intros [H | H].
  - assert (H0 : 0 < o) by lra.
    exists (100 / (o + 100)).
    split; [apply american_to_prob_pos; exact H0 |].
    split; [apply american_to_implied_pos; lra |].
    split; [apply prob_pos_range; exact H0 |].
    split; [| split].
    + intros Hne. apply core_round_trip_pos.
      destruct (Qlt_le_dec 100 o) as [Hlt | Hle]; [exact Hlt |].
      exfalso. apply Hne. lra.
    + intros Hne Hb. apply Qabs_Qle_condition in Hb.
      apply io_round_trip_pos; [| lra].
      destruct (Qlt_le_dec 100 o) as [Hlt | Hle]; [exact Hlt |].
      exfalso. apply Hne. lra.
    + apply round_trip_even_money.
  - assert (H0 : o < 0) by lra.
    exists ((-1 * o) / ((-1 * o) + 100)).
    split; [apply american_to_prob_neg; exact H0 |].
    split; [rewrite american_to_implied_neg by exact H0; field; lra |].
    split; [apply prob_neg_range; exact H0 |].
    split; [| split].
    + intros _. apply core_round_trip_neg. exact H.
    + intros _ Hb. apply Qabs_Qle_condition in Hb.
      apply io_round_trip_neg; [exact H | lra].
    + intros He. exfalso. lra.
Qed.

Lemma american_round_trip_witness :
  exists p,
    Core.american_to_prob (PNum (-120)) = Some p /\
    Io.american_to_implied (-120) == p /\
    (0 < p /\ p < 1) /\
    (~ -120 == 100 ->
     exists z, Core.prob_to_american (PNum p) = Some z /\
               Qabs (inject_Z z - (-120)) <= 1 # 2) /\
    (~ -120 == 100 -> Qabs (-120) <= 99999900 ->
     Qabs (inject_Z (Io.prob_to_american (Io.american_to_implied (-120))) - (-120)) <= 1 # 2) /\
    (-120 == 100 ->
     Core.prob_to_american (PNum p) = Some (-100)%Z /\
     Io.prob_to_american (Io.american_to_implied (-120)) = (-100)%Z).
Proof.
  apply (american_round_trip (-120)). right. discriminate.
Defined.

(** C8 (as stated) fails at even money: +100 has implied probability one
    half, whose fair price is -100, two hundred points away from +100. *)
Lemma round_trip_100_gives_minus_100 :
  100 <= 100 /\
  Core.american_to_prob (PNum 100) = Some (100 / (100 + 100)) /\
  Core.prob_to_american (PNum (100 / (100 + 100))) = Some (-100)%Z /\
  Io.prob_to_american (Io.american_to_implied 100) = (-100)%Z /\
  Qabs (inject_Z (-100) - 100) == 200.
Proof.
  split; [discriminate |]. repeat split.
Qed.

(** ** EdgeSizer: the Kelly fraction *)

Lemma pymax_Qmax (a b : Q) : pymax a b == Qmax a b.
Proof.
  unfold pymax. cmp_cases.
  - symmetry. apply Q.max_r. lra.
  - symmetry. apply Q.max_l. exact E.
Qed.

Lemma pymin_Qmin (a b : Q) : pymin a b == Qmin b a.
Proof.
  unfold pymin. cmp_cases.
  - symmetry. apply Q.min_l. lra.
  - symmetry. apply Q.min_r. exact E.
Qed.

Section KellyFacts.

Variables p price : Q.
Hypothesis price_nonzero : ~ price == 0.

Lemma profit_multiplier_pos : 0 < Spec.profit_multiplier price.
Proof.
  unfold Spec.profit_multiplier. cmp_cases.
  - apply Qlt_shift_div_l; lra.
  - assert (Ha : Qabs price == - price) by (apply Qabs_neg; exact E).
    apply Qlt_shift_div_l; [| lra].
    rewrite Ha. destruct (Qlt_le_dec price 0) as [Hlt | Hge]; [lra |].
    exfalso. apply price_nonzero. lra.
Qed.

Lemma kelly_fraction_value :
  Kelly.kelly_fraction p price =
    Some (pymax 0 ((Spec.profit_multiplier price * p - (1 - p))
                   / Spec.profit_multiplier price)).
Proof.
  pose proof profit_multiplier_pos as Hb.
  unfold Kelly.kelly_fraction, pydiv. unfold Spec.profit_multiplier in *.
  destruct (Qlt_bool 0 price) eqn:Hs.
  - cbv zeta.
    destruct (Qeq_bool (price / 100) 0) eqn:Hz; [| reflexivity].
    apply Qeq_bool_iff in Hz. exfalso. lra.
  - destruct (Qeq_bool (Qabs price) 0) eqn:Hz.
    + apply Qeq_bool_iff in Hz. exfalso.
      apply Qlt_bool_false in Hs.
      rewrite (Qabs_neg price Hs) in Hz. apply price_nonzero. lra.
    + cbv zeta.
      destruct (Qeq_bool (100 / Qabs price) 0) eqn:Hz'; [| reflexivity].
      apply Qeq_bool_iff in Hz'. exfalso. lra.
Qed.

(** The decimal odds of the price are [1 + b]. *)
Lemma american_to_decimal_b :
  Io.american_to_decimal price == 1 + Spec.profit_multiplier price.
Proof.
  unfold Io.american_to_decimal, Spec.profit_multiplier.
  cmp_cases; try reflexivity.
  - exfalso. lra.
  - exfalso. apply price_nonzero. lra.
Qed.

Lemma fair_bet_zero_edge :
  p == Io.american_to_implied price ->
  (Spec.profit_multiplier price * p - (1 - p)) / Spec.profit_multiplier price == 0.
Proof.
  pose proof profit_multiplier_pos as Hb.
  unfold Io.american_to_implied. rewrite american_to_decimal_b.
  intros Hp. rewrite Hp. field. split; lra.
Qed.

End KellyFacts.

(** C5 (as the code has it).  For every probability [p] and every non-zero
    American price with profit multiplier [b], the capped Kelly fraction is
    [min(cap, max(0, (b*p - (1-p))/b))]; it never exceeds the cap, and when
    the configured cap is not negative it is never negative and is zero for
    a fair bet. *)
Theorem capped_kelly_spec (p price cap : Q) :
  ~ price == 0 ->
  let b := Spec.profit_multiplier price in
  exists k,
    Kelly.capped_kelly p price cap = Some k /\
    k == Qmin cap (Qmax 0 ((b * p - (1 - p)) / b)) /\
    k <= cap /\
    (0 <= cap -> 0 <= k) /\
    (0 <= cap -> p == Io.american_to_implied price -> k == 0).
Proof.
  intros Hnz b.
  pose proof (kelly_fraction_value p price Hnz) as Hk.
  pose proof (fair_bet_zero_edge p price Hnz) as Hfair.
  fold b in Hk, Hfair.
  unfold Kelly.capped_kelly. rewrite Hk.
  set (f := (b * p - (1 - p)) / b) in *.
  eexists. split; [reflexivity |].
  pose proof (pymax_spec 0 f) as (Hm0 & Hmf & Hmc).
  pose proof (pymin_spec (pymax 0 f) cap) as (Hn0 & Hnc & Hncase).
  split; [| split; [| split]].
  - rewrite pymin_Qmin. now rewrite pymax_Qmax.
  - exact Hnc.
  - intros Hcap. destruct Hncase as [-> | ->]; assumption.
  - intros Hcap Hp. apply Hfair in Hp.
    assert (Hz : pymax 0 f = 0) by (apply pymax_l; lra).
    rewrite Hz. rewrite pymin_l by exact Hcap. reflexivity.
Qed.

Lemma capped_kelly_spec_witness :
  let b := Spec.profit_multiplier (-120) in
  exists k,
    Kelly.capped_kelly (3 # 5) (-120) (1 # 20) = Some k /\
    k == Qmin (1 # 20) (Qmax 0 ((b * (3 # 5) - (1 - (3 # 5))) / b)) /\
    k <= 1 # 20 /\
    (0 <= 1 # 20 -> 0 <= k) /\
    (0 <= 1 # 20 -> 3 # 5 == Io.american_to_implied (-120) -> k == 0).
Proof.
  apply (capped_kelly_spec (3 # 5) (-120) (1 # 20)). discriminate.
Defined.

(** C5 (as stated) fails for a negative cap: with an even-money price, a
    win probability of 3/5 and a cap of -1/100 the capped fraction is the
    cap itself, a negative number. *)
Lemma capped_kelly_negative_cap :
  (0 < 3 # 5 /\ 3 # 5 < 1) /\
  (exists f, Kelly.kelly_fraction (3 # 5) 100 = Some f /\ f == 1 # 5) /\
  (exists k, Kelly.capped_kelly (3 # 5) 100 (- (1 # 100)) = Some k /\
             k == - (1 # 100) /\ k < 0).
Proof.
  repeat split; eexists; repeat split.
Qed.

(** ** DistributionPricer *)

Lemma clip_range (lo hi x : Q) : lo <= hi -> lo <= clip lo hi x <= hi.
Proof. intros H. unfold clip. cmp_cases; lra. Qed.

Section NormalPricer.

(** SciPy's standard Normal CDF, known here only through its range. *)
Variable norm_cdf : Q -> Q.
Hypothesis norm_cdf_range : forall z, 0 <= norm_cdf z <= 1.

Variables mean sd line : Q.

Lemma yardage_probs_value :
  Markets.yardage_probs norm_cdf mean sd line =
    (1 - norm_cdf ((line - mean) / pymax sd eps),
     norm_cdf ((line - mean) / pymax sd eps)).
Proof. reflexivity. Qed.

Lemma run_probs_value :
  Core.run_probs norm_cdf mean sd line =
    (1 - norm_cdf ((line - mean) / pymax sd eps),
     1 - (1 - norm_cdf ((line - mean) / pymax sd eps))).
Proof. reflexivity. Qed.

End NormalPricer.

(** C6.  For a row whose adjusted sd respects the floor [1e-6], the pricer
    returns [p_under = CDF(line; mean, sd)], that is the standard Normal CDF
    at [(line - mean) / sd], and [p_over = 1 - p_under]; the two add up to
    one and lie in [[0,1]].  Both pipelines ([yardage_probs] and the pricing
    step of [run]) agree on this. *)
Theorem yardage_probs_spec (norm_cdf : Q -> Q) (mean sd line : Q) :
  (forall z, 0 <= norm_cdf z <= 1) ->
  eps <= sd ->
  let (p_over, p_under) := Markets.yardage_probs norm_cdf mean sd line in
  let (p_over', p_under') := Core.run_probs norm_cdf mean sd line in
  (p_under == norm_cdf ((line - mean) / sd) /\
   p_over == 1 - p_under /\
   p_over + p_under == 1 /\
   (0 <= p_over /\ p_over <= 1) /\
   (0 <= p_under /\ p_under <= 1)) /\
  (p_under' == norm_cdf ((line - mean) / sd) /\
   p_over' == 1 - p_under' /\
   p_over' + p_under' == 1 /\
   (0 <= p_over' /\ p_over' <= 1) /\
   (0 <= p_under' /\ p_under' <= 1)).
Proof.
  intros Hrange Hsd.
  pose proof (Hrange ((line - mean) / sd)) as [H0 H1].
  rewrite yardage_probs_value, run_probs_value.
  rewrite (pymax_l sd eps Hsd).
  repeat split; lra.
Qed.

Lemma yardage_probs_spec_witness :
  let (p_over, p_under) :=
    Markets.yardage_probs (fun z => clip 0 1 ((1 # 2) + z / 4)) 60 20 (111 # 2) in
  let (p_over', p_under') :=
    Core.run_probs (fun z => clip 0 1 ((1 # 2) + z / 4)) 60 20 (111 # 2) in
  (p_under == clip 0 1 ((1 # 2) + ((111 # 2) - 60) / 20 / 4) /\
   p_over == 1 - p_under /\
   p_over + p_under == 1 /\
   (0 <= p_over /\ p_over <= 1) /\
   (0 <= p_under /\ p_under <= 1)) /\
  (p_under' == clip 0 1 ((1 # 2) + ((111 # 2) - 60) / 20 / 4) /\
   p_over' == 1 - p_under' /\
   p_over' + p_under' == 1 /\
   (0 <= p_over' /\ p_over' <= 1) /\
   (0 <= p_under' /\ p_under' <= 1)).
Proof.
  apply (yardage_probs_spec (fun z => clip 0 1 ((1 # 2) + z / 4)) 60 20 (111 # 2)).
  - intros z. apply clip_range. discriminate.
  - discriminate.
Defined.

(** ** AdjustmentPipeline *)

Lemma get_fillna (c : cell) :
  get (fillna 1 c) 1 = Some (match c with Num q => q | _ => 1 end).
Proof. destruct c; reflexivity. Qed.

Lemma weather_penalty_value (temp_f wind_mph : option Q) (cfg : Cfg.volatility) :
  Markets.weather_penalty temp_f wind_mph cfg ==
    (if match wind_mph with
        | Some w => Qle_bool (Cfg.wind_threshold_mph cfg) w
        | None => false
        end
     then 1 + Cfg.wind_sd_widen cfg else 1)
    * (if match temp_f with
          | Some t => Qle_bool t (Cfg.cold_threshold_f cfg)
          | None => false
          end
       then 1 + Cfg.cold_sd_widen cfg else 1).
Proof.
  unfold Markets.weather_penalty.
  destruct wind_mph as [w |], temp_f as [t |]; cbv zeta;
    repeat match goal with
      | |- context [Qle_bool ?a ?b] => destruct (Qle_bool a b)
      end; ring.
Qed.

Lemma widen_flag (flag : bool) (sd w : Q) :
  sd * (1 + (if flag then w else 0)) == sd * (if flag then 1 + w else 1).
Proof. destruct flag; ring. Qed.

(** C2.  For a row of the merged frame whose prior mean and sd are
    available, [adjusted_mu_sd] (after the [fillna] of [attach_context])
    returns the mean multiplied by the pace, play-rate and efficiency
    multipliers of the team and by the snap and target-share adjustments,
    each one 1 when unknown, and the sd multiplied in turn by the wind,
    cold, pressure and quarterback-tier wideners, the last one only on a
    passing market for a player flagged low-tier.  When the mean or the sd
    is missing it returns the pair of [None]. *)
Theorem adjusted_mu_sd_spec (r : Features.row) (m : Features.mods) (cfg : Cfg.volatility) :
  (forall mu sd0 : Q,
      Features.mean r = Some mu -> Features.sd r = Some sd0 ->
      let t := upper (Features.team r) in
      let pace := default 1 (Features.pace m !! t) in
      let proe := default 1 (Features.proe m !! t) in
      let eff := default 1 (Features.off_epa m !! t) in
      let snap := match Features.snap_adj r with Num q => q | _ => 1 end in
      let share := match Features.share_adj r with Num q => q | _ => 1 end in
      let windy :=
        match get (Features.wind_mph r) 0 with
        | Some w => Qle_bool (Cfg.wind_threshold_mph cfg) w
        | None => false
        end in
      let cold :=
        match get (Features.temp_f r) 55 with
        | Some t => Qle_bool t (Cfg.cold_threshold_f cfg)
        | None => false
        end in
      let pressure :=
        bool_decide (upper (default EmptyString (Features.opp r))
                       ∈ Features.top10_pressure m) in
      let low_qb :=
        (str_in "passing" (lower (Features.market r))
         && bool_decide (upper (Features.player r) ∈ Features.low_tier_qb m))%bool in
      exists mu' sd',
        Features.adjusted_mu_sd (Features.fill_usage r) m cfg = (PNum mu', PNum sd') /\
        mu' == mu * pace * proe * eff * snap * share /\
        sd' == sd0
               * (if windy then 1 + Cfg.wind_sd_widen cfg else 1)
               * (if cold then 1 + Cfg.cold_sd_widen cfg else 1)
               * (if pressure then 1 + Cfg.widen_sd_if_pressure_top10 cfg else 1)
               * (if low_qb then 1 + Cfg.widen_sd_if_qb_lowtier cfg else 1)) /\
  (Features.mean r = None \/ Features.sd r = None ->
   Features.adjusted_mu_sd (Features.fill_usage r) m cfg = (PNone, PNone)).
Proof.
  split.
  - intros mu sd0 Hmu Hsd. cbv zeta.
    unfold Features.adjusted_mu_sd, Features.fill_usage. cbn [Features.mean Features.sd
      Features.team Features.player Features.market Features.opp Features.snap_adj
      Features.share_adj Features.temp_f Features.wind_mph].
    rewrite Hmu, Hsd. cbv zeta. rewrite !get_fillna. cbn [fmul Features.of_float].
    do 2 eexists. split; [reflexivity |]. split.
    + ring.
    + unfold Markets.widen_for_low_qb, Markets.widen_for_pressure.
      rewrite !widen_flag. rewrite weather_penalty_value.
      destruct (str_in "passing" (lower (Features.market r))); cbn [andb]; ring.
  - intros H. unfold Features.adjusted_mu_sd, Features.fill_usage. cbn [Features.mean Features.sd].
    destruct H as [-> | ->]; [reflexivity |].
    destruct (Features.mean r); reflexivity.
Qed.

Lemma adjusted_mu_sd_spec_witness :
  exists mu' sd',
    Features.adjusted_mu_sd (Features.fill_usage Scenario.passing_row)
      Scenario.feed Scenario.vol = (PNum mu', PNum sd') /\
    mu' == 250 * (21 # 20) * 1 * (11 # 10) * (9 # 10) * 1 /\
    sd' == 45 * 1 * (1 + (3 # 100)) * (1 + (4 # 100)) * (1 + (6 # 100)).
Proof.
  destruct (proj1 (adjusted_mu_sd_spec Scenario.passing_row Scenario.feed Scenario.vol)
              250 45 eq_refl eq_refl) as (mu' & sd' & Hrun & Hmu & Hsd).
  exists mu', sd'. split; [exact Hrun |]. split.
  - rewrite Hmu. vm_compute. reflexivity.
  - rewrite Hsd. vm_compute. reflexivity.
Defined.

(** ** ParlayBuilder *)

Lemma fold_left_Qmult_acc (l : list Q) (a : Q) :
  fold_left Qmult l a == a * fold_left Qmult l 1.
Proof.
  revert a. induction l as [| x l IH]; intros a; cbn [fold_left].
  - ring.
  - rewrite (IH (a * x)), (IH (1 * x)). ring.
Qed.

Lemma prod_nil : prod [] = 1.
Proof. reflexivity. Qed.

Lemma prod_cons (x : Q) (l : list Q) : prod (x :: l) == x * prod l.
Proof.
  unfold prod. cbn [fold_left]. rewrite fold_left_Qmult_acc. ring.
Qed.

(** [np.prod] of a mapped column is the product of the specification. *)
Lemma prod_map_product_over {A : Type} (f : A -> Q) (l : list A) :
  prod (List.map f l) == Spec.product_over f l.
Proof.
  induction l as [| x l IH]; [reflexivity |].
  cbn [List.map Spec.product_over fold_right]. rewrite prod_cons.
  fold (Spec.product_over f l). now rewrite IH.
Qed.

Lemma product_over_ext {A : Type} (f g : A -> Q) (l : list A) :
  Forall (fun x => f x == g x) l ->
  Spec.product_over f l == Spec.product_over g l.
Proof.
  induction 1 as [| x l Hx _ IH]; [reflexivity |].
  cbn [Spec.product_over fold_right].
  fold (Spec.product_over f l) (Spec.product_over g l). now rewrite Hx, IH.
Qed.

Lemma product_over_pos {A : Type} (f : A -> Q) (l : list A) :
  Forall (fun x => 0 < f x) l -> 0 < Spec.product_over f l.
Proof.
  induction 1 as [| x l Hx _ IH]; [reflexivity |].
  cbn [Spec.product_over fold_right]. fold (Spec.product_over f l). nra.
Qed.

Lemma product_over_le_1 {A : Type} (f : A -> Q) (l : list A) :
  Forall (fun x => 0 < f x <= 1) l -> Spec.product_over f l <= 1.
Proof.
  intros H.
  assert (Hpos : 0 < Spec.product_over f l).
  { apply product_over_pos. eapply Forall_impl; [exact H |]. cbv beta. tauto. }
  induction H as [| x l Hx Hl IH]; [discriminate |].
  cbn [Spec.product_over fold_right] in *. fold (Spec.product_over f l) in *.
  assert (Hl' : 0 < Spec.product_over f l).
  { apply product_over_pos. eapply Forall_impl; [exact Hl |]. cbv beta. tauto. }
  specialize (IH Hl'). nra.
Qed.

(** A non-empty product of factors in [(0, u]] with [u <= 1] stays in
    [(0, u]]. *)
Lemma product_over_bound {A : Type} (f : A -> Q) (u : Q) (l : list A) :
  u <= 1 -> l <> [] ->
  Forall (fun x => 0 < f x <= u) l ->
  0 < Spec.product_over f l <= u.
Proof.
  intros Hu Hne H. destruct H as [| x l Hx Hl]; [congruence |].
  cbn [Spec.product_over fold_right]. fold (Spec.product_over f l).
  assert (Hpos : 0 < Spec.product_over f l).
  { apply product_over_pos. eapply Forall_impl; [exact Hl |]. cbv beta. tauto. }
  assert (Hle : Spec.product_over f l <= 1).
  { apply product_over_le_1. eapply Forall_impl; [exact Hl |].
    cbv beta. intros a [? ?]. split; [assumption | lra]. }
  nra.
Qed.

(** *** Selection of the legs *)

Lemma insert_desc_perm (x : Pred.row) (l : list Pred.row) :
  Permutation (Parlays.insert_desc x l) (x :: l).
Proof.
  induction l as [| y ys IH]; cbn [Parlays.insert_desc]; [reflexivity |].
  destruct (Qlt_bool (Pred.edge_pct x) (Pred.edge_pct y)); [| reflexivity].
  rewrite IH. apply perm_swap.
Qed.

Lemma sort_desc_perm (l : list Pred.row) : Permutation (Parlays.sort_desc l) l.
Proof.
  induction l as [| x l IH]; [reflexivity |].
  cbn [Parlays.sort_desc fold_right]. fold (Parlays.sort_desc l).
  rewrite insert_desc_perm. now rewrite IH.
Qed.

Lemma firstn_incl {A : Type} (n : nat) (l : list A) (x : A) :
  In x (firstn n l) -> In x l.
Proof.
  revert l. induction n as [| n IH]; intros [| y l]; cbn; try tauto.
  intros [-> | H]; [now left | right; now apply IH].
Qed.

Lemma df_head_incl {A : Type} (n : Z) (l : list A) (x : A) :
  In x (Parlays.df_head n l) -> In x l.
Proof.
  unfold Parlays.df_head. destruct (0 <=? n)%Z; apply firstn_incl.
Qed.

Lemma df_head_nil {A : Type} (n : Z) : Parlays.df_head n (@nil A) = [].
Proof.
  unfold Parlays.df_head. destruct (0 <=? n)%Z; apply firstn_nil.
Qed.

Lemma df_head_nonempty {A : Type} (n : Z) (l : list A) :
  (1 <= n)%Z -> l <> [] -> Parlays.df_head n l <> [].
Proof.
  intros Hn Hl. unfold Parlays.df_head.
  destruct (0 <=? n)%Z eqn:E; [| apply Z.leb_gt in E; lia].
  destruct l as [| x l]; [congruence |].
  destruct (Z.to_nat n) eqn:En; [lia | discriminate].
Qed.

Lemma meets_In (b : Cfg.bucket) (pred_df : list Pred.row) (r : Pred.row) :
  In r (Parlays.meets b pred_df) <->
  In r pred_df /\ Parlays.min_edge b <= Pred.edge_pct r.
Proof.
  unfold Parlays.meets. rewrite filter_In. now rewrite Qle_bool_iff.
Qed.

Lemma pool_In (b : Cfg.bucket) (pred_df : list Pred.row) (r : Pred.row) :
  In r (Parlays.pool b pred_df) ->
  In r pred_df /\ Parlays.min_edge b <= Pred.edge_pct r.
Proof.
  unfold Parlays.pool. intros H. apply df_head_incl in H.
  apply meets_In. eapply Permutation_in; [apply sort_desc_perm | exact H].
Qed.

(** The branch taken by [build_parlays]: the pool is empty exactly when no
    row reaches the applied threshold. *)
Lemma pool_nonempty (b : Cfg.bucket) (pred_df : list Pred.row) :
  Parlays.pool b pred_df <> [] <->
  exists r, In r pred_df /\ Parlays.min_edge b <= Pred.edge_pct r.
Proof.
  split.
  - intros H. destruct (Parlays.pool b pred_df) as [| r l] eqn:E; [congruence |].
    exists r. apply pool_In. rewrite E. now left.
  - intros (r & Hin & Hr) Hnil.
    assert (Hm : In r (Parlays.meets b pred_df)) by (apply meets_In; tauto).
    apply (Permutation_in _ (Permutation_sym (sort_desc_perm _))) in Hm.
    unfold Parlays.pool in Hnil.
    destruct (Parlays.sort_desc (Parlays.meets b pred_df)) as [| y ys]; [contradiction |].
    discriminate Hnil.
Qed.

Lemma clip_inside (lo hi x : Q) : lo <= x -> x <= hi -> clip lo hi x = x.
Proof. intros Hlo Hhi. unfold clip. cmp_cases; [lra | lra | reflexivity]. Qed.

Lemma Forall_all {A : Type} (P : A -> Prop) (l : list A) :
  (forall x, P x) -> Forall P l.
Proof. intros H. induction l; constructor; auto. Qed.

Lemma parlay_of_empty (pred_df : list Pred.row) (pen : Q) (b : Cfg.bucket) :
  Parlays.pool b pred_df = [] ->
  Parlays.parlay_of pred_df pen b =
    {| Parlays.bucket := Cfg.name b; Parlays.legs := [];
       Parlays.parlay_prob := 0; Parlays.decimal_odds := 1;
       Parlays.ev_per_unit := -1 |}.
Proof. intros H. unfold Parlays.parlay_of. now rewrite H. Qed.

Lemma parlay_of_legs (pred_df : list Pred.row) (pen : Q) (b : Cfg.bucket) :
  Parlays.pool b pred_df <> [] ->
  Parlays.parlay_of pred_df pen b =
    let legs := Parlays.chosen b pred_df in
    let parlay_prob :=
      prod (List.map (fun r => clip (1 # 1000) (999 # 1000) (Pred.side_prob r) * pen) legs) in
    let dec_odds := prod (List.map Pred.decimal_odds legs) in
    {| Parlays.bucket := Cfg.name b; Parlays.legs := legs;
       Parlays.parlay_prob := parlay_prob; Parlays.decimal_odds := dec_odds;
       Parlays.ev_per_unit := parlay_prob * dec_odds - 1 |}.
Proof.
  intros H. unfold Parlays.parlay_of.
  destruct (Parlays.pool b pred_df); [congruence | reflexivity].
Qed.

(** C3 (as the code has it).  For every bucket with at least one row at or
    above its threshold, the combined probability is the product over the
    chosen legs of the leg probability, clipped to [[0.001, 0.999]], times
    the correlation penalty (so the product of probability times penalty
    whenever the probabilities lie in that interval); the combined decimal
    odds are the product of the legs' decimal odds and the EV is their
    product minus one.  For the two legs with odds 2.0 and 1.8,
    probabilities 0.55 and 0.5 and penalty 0.95 this gives 0.2481875, 3.6
    and -0.106525. *)
Theorem parlay_product_spec :
  (forall (pred_df : list Pred.row) (pen : Q) (b : Cfg.bucket),
      (exists r, In r pred_df /\ Parlays.min_edge b <= Pred.edge_pct r) ->
      let res := Parlays.parlay_of pred_df pen b in
      Parlays.legs res = Parlays.chosen b pred_df /\
      Parlays.parlay_prob res ==
        Spec.product_over
          (fun r => clip (1 # 1000) (999 # 1000) (Pred.side_prob r) * pen)
          (Parlays.legs res) /\
      (Forall (fun r => 1 # 1000 <= Pred.side_prob r /\ Pred.side_prob r <= 999 # 1000)
              (Parlays.legs res) ->
       Parlays.parlay_prob res ==
         Spec.product_over (fun r => Pred.side_prob r * pen) (Parlays.legs res)) /\
      Parlays.decimal_odds res == Spec.product_over Pred.decimal_odds (Parlays.legs res) /\
      Parlays.ev_per_unit res ==
        Parlays.parlay_prob res * Parlays.decimal_odds res - 1) /\
  (let res :=
     Parlays.parlay_of [Scenario.leg_b; Scenario.leg_a] (95 # 100) Scenario.two_leg in
   Parlays.legs res = [Scenario.leg_a; Scenario.leg_b] /\
   Parlays.parlay_prob res == 2481875 # 10000000 /\
   Parlays.decimal_odds res == 36 # 10 /\
   Parlays.ev_per_unit res == - (106525 # 1000000)).
Proof.
  split.
  - intros pred_df pen b Hex. apply pool_nonempty in Hex.
    rewrite (parlay_of_legs pred_df pen b Hex). cbv zeta.
    cbn [Parlays.legs Parlays.parlay_prob Parlays.decimal_odds Parlays.ev_per_unit].
    split; [reflexivity |].
    split; [apply prod_map_product_over |].
    split; [| split; [apply prod_map_product_over | reflexivity]].
    intros Hin. rewrite prod_map_product_over. apply product_over_ext.
    eapply Forall_impl; [exact Hin |]. cbv beta. intros r [Hlo Hhi].
    now rewrite clip_inside.
  - vm_compute. repeat split.
Qed.

Lemma parlay_product_spec_witness :
  let res :=
    Parlays.parlay_of [Scenario.leg_b; Scenario.leg_a] (95 # 100) Scenario.two_leg in
  Parlays.legs res = Parlays.chosen Scenario.two_leg [Scenario.leg_b; Scenario.leg_a] /\
  Parlays.parlay_prob res ==
    Spec.product_over
      (fun r => clip (1 # 1000) (999 # 1000) (Pred.side_prob r) * (95 # 100))
      (Parlays.legs res) /\
  (Forall (fun r => 1 # 1000 <= Pred.side_prob r /\ Pred.side_prob r <= 999 # 1000)
          (Parlays.legs res) ->
   Parlays.parlay_prob res ==
     Spec.product_over (fun r => Pred.side_prob r * (95 # 100)) (Parlays.legs res)) /\
  Parlays.decimal_odds res == Spec.product_over Pred.decimal_odds (Parlays.legs res) /\
  Parlays.ev_per_unit res ==
    Parlays.parlay_prob res * Parlays.decimal_odds res - 1.
Proof.
  apply (proj1 parlay_product_spec [Scenario.leg_b; Scenario.leg_a] (95 # 100)
           Scenario.two_leg).
  exists Scenario.leg_a. split; [right; left; reflexivity | vm_compute; discriminate].
Defined.

(** C3 (as stated) fails twice.  The worked scenario gives 0.2481875, which
    is 0.2482 to four places and not 0.2484, and an EV of -0.106525; and a
    leg whose win probability is 1 enters the product as 0.999, so the
    combined probability is not the product of probability times penalty. *)
Lemma parlay_scenario_is_not_2484 :
  (let res :=
     Parlays.parlay_of [Scenario.leg_a; Scenario.leg_b] (95 # 100) Scenario.two_leg in
   Parlays.decimal_odds res == 36 # 10 /\
   Parlays.parlay_prob res == 2481875 # 10000000 /\
   ~ Parlays.parlay_prob res == 2484 # 10000 /\
   Parlays.ev_per_unit res == - (106525 # 1000000)) /\
  (let res := Parlays.parlay_of [Scenario.leg_sure] 1 Scenario.two_leg in
   Parlays.legs res = [Scenario.leg_sure] /\
   Parlays.parlay_prob res == 999 # 1000 /\
   ~ Parlays.parlay_prob res ==
       Spec.product_over (fun r => Pred.side_prob r * 1) (Parlays.legs res)).
Proof.
  vm_compute. repeat split; discriminate.
Qed.

(** C4.  [build_parlays] returns one row per configured bucket, and for a
    bucket whose applied threshold no priced row reaches, that row is the
    fully populated sentinel: no legs, probability 0, decimal odds 1 and
    EV -1. *)
Theorem empty_bucket_sentinel (pred_df : list Pred.row) (cfg : Cfg.parlays) :
  length (Parlays.build_parlays pred_df cfg) = length (Cfg.buckets cfg) /\
  forall (i : nat) (b : Cfg.bucket),
    nth_error (Cfg.buckets cfg) i = Some b ->
    (forall r, In r pred_df -> Pred.edge_pct r < Parlays.min_edge b) ->
    nth_error (Parlays.build_parlays pred_df cfg) i =
      Some {| Parlays.bucket := Cfg.name b; Parlays.legs := [];
              Parlays.parlay_prob := 0; Parlays.decimal_odds := 1;
              Parlays.ev_per_unit := -1 |}.
Proof.
  unfold Parlays.build_parlays. split; [apply length_map |].
  intros i b Hb Hnone.
  rewrite (map_nth_error _ _ _ Hb). f_equal.
  apply parlay_of_empty.
  destruct (Parlays.pool b pred_df) as [| r l] eqn:E; [reflexivity |].
  assert (Hne : Parlays.pool b pred_df <> []) by (rewrite E; discriminate).
  apply pool_nonempty in Hne. destruct Hne as (r' & Hin & Hr).
  specialize (Hnone r' Hin). lra.
Qed.

Lemma empty_bucket_sentinel_witness :
  nth_error
    (Parlays.build_parlays [Scenario.leg_a; Scenario.leg_b]
       {| Cfg.correlation_penalty := 95 # 100;
          Cfg.buckets := [Scenario.two_leg; Scenario.strict] |}) 1 =
    Some {| Parlays.bucket := "strict"; Parlays.legs := [];
            Parlays.parlay_prob := 0; Parlays.decimal_odds := 1;
            Parlays.ev_per_unit := -1 |}.
Proof.
  apply (proj2 (empty_bucket_sentinel [Scenario.leg_a; Scenario.leg_b]
                  {| Cfg.correlation_penalty := 95 # 100;
                     Cfg.buckets := [Scenario.two_leg; Scenario.strict] |})
           1%nat Scenario.strict).
  - reflexivity.
  - intros r [<- | [<- | []]]; reflexivity.
Defined.

(** C9.  The threshold compared with the [edge_pct] column is one hundred
    times the configured [min_edge_pct] when that value is below 1 and the
    configured value itself otherwise; a row enters the pool, and so the
    parlay, only if its edge reaches this threshold. *)
Theorem min_edge_rescaled (b : Cfg.bucket) :
  (Cfg.min_edge_pct b < 1 -> Parlays.min_edge b = 100 * Cfg.min_edge_pct b) /\
  (1 <= Cfg.min_edge_pct b -> Parlays.min_edge b = Cfg.min_edge_pct b) /\
  (forall pred_df r,
      In r (Parlays.meets b pred_df) <->
      In r pred_df /\ Parlays.min_edge b <= Pred.edge_pct r) /\
  (forall pred_df r,
      In r (Parlays.chosen b pred_df) ->
      In r pred_df /\ Parlays.min_edge b <= Pred.edge_pct r) /\
  (forall pred_df,
      Parlays.pool b pred_df <> [] <->
      exists r, In r pred_df /\ Parlays.min_edge b <= Pred.edge_pct r).
Proof.
  split; [| split; [| split; [| split]]].
  - intros H. unfold Parlays.min_edge. cmp_cases; [reflexivity | exfalso; lra].
  - intros H. unfold Parlays.min_edge. cmp_cases; [exfalso; lra | reflexivity].
  - intros pred_df r. apply meets_In.
  - intros pred_df r H. unfold Parlays.chosen in H.
    apply df_head_incl in H. now apply pool_In.
  - intros pred_df. apply pool_nonempty.
Qed.

Lemma min_edge_rescaled_witness :
  Parlays.min_edge Scenario.two_leg = 100 * (2 # 100) /\
  Parlays.min_edge Scenario.strict = 50.
Proof.
  split.
  - apply (proj1 (min_edge_rescaled Scenario.two_leg)). reflexivity.
  - apply (proj1 (proj2 (min_edge_rescaled Scenario.strict))). discriminate.
Defined.

(** C10 (as the code has it).  For every bucket with at least one row at or
    above its threshold and a penalty [pen > 0], each leg's probability is
    clipped into [[0.001, 0.999]] before the penalty is applied, so every
    factor lies in [[0.001 pen, 0.999 pen]] and the combined probability is
    strictly positive; it is strictly below 1 when moreover [pen <= 1] and
    the bucket allows at least one leg. *)
Theorem parlay_prob_bounds (pred_df : list Pred.row) (pen : Q) (b : Cfg.bucket) :
  (exists r, In r pred_df /\ Parlays.min_edge b <= Pred.edge_pct r) ->
  0 < pen ->
  let res := Parlays.parlay_of pred_df pen b in
  let factor := fun r => clip (1 # 1000) (999 # 1000) (Pred.side_prob r) * pen in
  Parlays.parlay_prob res = prod (List.map factor (Parlays.legs res)) /\
  Forall (fun r =>
            (1 # 1000 <= clip (1 # 1000) (999 # 1000) (Pred.side_prob r) /\
             clip (1 # 1000) (999 # 1000) (Pred.side_prob r) <= 999 # 1000) /\
            (1 # 1000) * pen <= factor r /\ factor r <= (999 # 1000) * pen)
         (Parlays.legs res) /\
  0 < Parlays.parlay_prob res /\
  (pen <= 1 -> (1 <= Cfg.max_legs b)%Z -> Parlays.parlay_prob res < 1).
Proof.
  intros Hex Hpen. apply pool_nonempty in Hex. cbv zeta.
  rewrite (parlay_of_legs pred_df pen b Hex). cbv zeta.
  cbn [Parlays.legs Parlays.parlay_prob].
  assert (Hclip : forall r : Pred.row,
             1 # 1000 <= clip (1 # 1000) (999 # 1000) (Pred.side_prob r) <= 999 # 1000)
    by (intros r; apply clip_range; discriminate).
  split; [reflexivity |]. split; [| split].
  - apply Forall_all. intros r. specialize (Hclip r). cbv beta. nra.
  - rewrite prod_map_product_over. apply product_over_pos.
    apply Forall_all. intros r. specialize (Hclip r). cbv beta. nra.
  - intros Hpen1 Hlegs. rewrite prod_map_product_over.
    apply Qle_lt_trans with (y := 999 # 1000); [| reflexivity].
    apply product_over_bound.
    + discriminate.
    + unfold Parlays.chosen. apply df_head_nonempty; assumption.
    + apply Forall_all. intros r. specialize (Hclip r). cbv beta. nra.
Qed.

Lemma parlay_prob_bounds_witness :
  let res :=
    Parlays.parlay_of [Scenario.leg_sure; Scenario.leg_a] (95 # 100) Scenario.two_leg in
  let factor := fun r => clip (1 # 1000) (999 # 1000) (Pred.side_prob r) * (95 # 100) in
  Parlays.parlay_prob res = prod (List.map factor (Parlays.legs res)) /\
  Forall (fun r =>
            (1 # 1000 <= clip (1 # 1000) (999 # 1000) (Pred.side_prob r) /\
             clip (1 # 1000) (999 # 1000) (Pred.side_prob r) <= 999 # 1000) /\
            (1 # 1000) * (95 # 100) <= factor r /\ factor r <= (999 # 1000) * (95 # 100))
         (Parlays.legs res) /\
  0 < Parlays.parlay_prob res /\
  (95 # 100 <= 1 -> (1 <= Cfg.max_legs Scenario.two_leg)%Z -> Parlays.parlay_prob res < 1).
Proof.
  apply (parlay_prob_bounds [Scenario.leg_sure; Scenario.leg_a] (95 # 100) Scenario.two_leg).
  - exists Scenario.leg_a. split; [right; left; reflexivity | vm_compute; discriminate].
  - reflexivity.
Defined.

(** C10 (as stated) fails for a penalty above 1: with [pen = 2] a single
    leg of probability 0.55 gives a combined probability of 1.1. *)
Lemma parlay_prob_above_one :
  0 < 2 /\
  (let res := Parlays.parlay_of [Scenario.leg_a] 2 Scenario.two_leg in
   Parlays.legs res = [Scenario.leg_a] /\
   Parlays.parlay_prob res == 11 # 10 /\
   ~ Parlays.parlay_prob res < 1).
Proof.
  vm_compute. repeat split; discriminate.
Qed.

(** * Further properties of the pricing code *)

(** ** Decimal odds and fair prices *)

(** An integer within one half of a bound that is itself an integer. *)
Lemma py_round_le_Z (x : Q) (n : Z) : x <= inject_Z n -> (py_round x <= n)%Z.
Proof.
  intros H. pose proof (py_round_near x) as [_ Hhi].
  assert (Hlt : inject_Z (py_round x) < inject_Z (n + 1)).
  { rewrite inject_Z_plus. change (inject_Z 1) with 1. lra. }
  rewrite <- Zlt_Qlt in Hlt. lia.
Qed.

Lemma py_round_ge_Z (x : Q) (n : Z) : inject_Z n <= x -> (n <= py_round x)%Z.
Proof.
  intros H. pose proof (py_round_near x) as [Hlo _].
  assert (Hlt : inject_Z (n - 1) < inject_Z (py_round x)).
  { unfold Z.sub. rewrite inject_Z_plus, inject_Z_opp. change (inject_Z 1) with 1. lra. }
  rewrite <- Zlt_Qlt in Hlt. lia.
Qed.

(** Two integers within one half of the same number are equal. *)
Lemma near_integers_equal (z w : Z) :
  Qabs (inject_Z w - inject_Z z) <= 1 # 2 -> w = z.
Proof.
  intros H. apply Qabs_Qle_condition in H. destruct H as [Hlo Hhi].
  assert (H1 : inject_Z w < inject_Z (z + 1)).
  { rewrite inject_Z_plus. change (inject_Z 1) with 1. lra. }
  assert (H2 : inject_Z (z - 1) < inject_Z w).
  { unfold Z.sub. rewrite inject_Z_plus, inject_Z_opp. change (inject_Z 1) with 1. lra. }
  rewrite <- Zlt_Qlt in H1, H2. lia.
Qed.

(** X1.  The decimal odds of any price are at least 1, and above 1 for
    every non-zero price; the implied probability is their inverse and
    lies in [(0, 1]]. *)
Theorem american_to_decimal_range (odds : Q) :
  1 <= Io.american_to_decimal odds /\
  (~ odds == 0 -> 1 < Io.american_to_decimal odds) /\
  (0 < Io.american_to_implied odds /\ Io.american_to_implied odds <= 1) /\
  Io.american_to_implied odds * Io.american_to_decimal odds == 1.
Proof.
  assert (Hd : 1 <= Io.american_to_decimal odds /\
               (~ odds == 0 -> 1 < Io.american_to_decimal odds)).
  { unfold Io.american_to_decimal. cmp_cases.
    - rewrite (Qabs_neg odds) by lra.
      assert (0 < 100 / - odds) by (apply Qlt_shift_div_l; lra).
      split; [lra | intros _; lra].
    - assert (0 <= odds / 100) by (apply Qle_shift_div_l; lra).
      split; [lra |]. intros Hnz.
      destruct (Qlt_le_dec 0 odds) as [Hpos | Hle].
      + assert (0 < odds / 100) by (apply Qlt_shift_div_l; lra). lra.
      + exfalso. apply Hnz. lra. }
  destruct Hd as [Hge Hgt].
  split; [exact Hge |]. split; [exact Hgt |].
  unfold Io.american_to_implied. split.
  - split; [apply Qlt_shift_div_l; lra | apply Qle_shift_div_r; lra].
  - field. lra.
Qed.

Lemma american_to_decimal_range_witness :
  1 < Io.american_to_decimal (-110).
Proof.
  apply (proj1 (proj2 (american_to_decimal_range (-110)))). discriminate.
Defined.

Section FairPrice.

Variable p : Q.

Lemma favourite_ratio : 1 # 2 <= p -> p < 1 -> -100 * (p / (1 - p)) <= -100.
Proof.
  intros Hh H1.
  assert (Hr : 1 <= p / (1 - p)) by (apply Qle_shift_div_l; lra).
  lra.
Qed.

Lemma underdog_ratio : 0 < p -> p < 1 # 2 -> 100 <= 100 * ((1 - p) / p).
Proof.
  intros H0 Hh.
  assert (Hr : 1 <= (1 - p) / p) by (apply Qle_shift_div_l; lra).
  lra.
Qed.

Lemma favourite_ratio_floor :
  p <= 1 - eps -> -99999900 <= -100 * (p / (1 - p)).
Proof.
  unfold eps. intros H1.
  assert (Hr : p / (1 - p) <= 999999) by (apply Qle_shift_div_r; lra).
  lra.
Qed.

Lemma underdog_ratio_ceil :
  eps <= p -> 100 * ((1 - p) / p) <= 99999900.
Proof.
  unfold eps. intros H0.
  assert (Hr : (1 - p) / p <= 999999) by (apply Qle_shift_div_r; lra).
  lra.
Qed.

End FairPrice.

(** X2.  [prob_to_american] of the main pipeline returns a price only for a
    probability strictly between 0 and 1, and that price is always a valid
    American price: at most -100 for [p >= 1/2], at least +100 below. *)
Theorem prob_to_american_valid_price (p : Q) :
  (0 < p /\ p < 1 ->
   exists z, Core.prob_to_american (PNum p) = Some z /\
             (1 # 2 <= p -> (z <= -100)%Z) /\
             (p < 1 # 2 -> (100 <= z)%Z)) /\
  (p <= 0 \/ 1 <= p -> Core.prob_to_american (PNum p) = None).
Proof.
  split.
  - intros [H0 H1]. unfold Core.prob_to_american.
    cmp_cases; cbn [orb]; try (exfalso; lra).
    + eexists. split; [reflexivity |]. split; [| intros; exfalso; lra].
      intros _. apply py_round_le_Z. apply favourite_ratio; assumption.
    + eexists. split; [reflexivity |]. split; [intros; exfalso; lra |].
      intros _. apply py_round_ge_Z. apply underdog_ratio; assumption.
  - intros H. unfold Core.prob_to_american.
    cmp_cases; cbn [orb]; try reflexivity; exfalso; lra.
Qed.

Lemma prob_to_american_valid_price_witness :
  exists z, Core.prob_to_american (PNum (3 # 5)) = Some z /\
            (1 # 2 <= 3 # 5 -> (z <= -100)%Z) /\
            (3 # 5 < 1 # 2 -> (100 <= z)%Z).
Proof.
  apply (proj1 (prob_to_american_valid_price (3 # 5))). split; reflexivity.
Defined.

Lemma clamp_range (p : Q) :
  eps <= pymin (pymax p eps) (1 - eps) <= 1 - eps.
Proof.
  unfold pymin, pymax, eps. cmp_cases; lra.
Qed.

(** X3.  [prob_to_american] of the modular pipeline never fails: whatever
    the probability, the price it returns is a valid American price of
    magnitude between 100 and 99,999,900. *)
Theorem io_prob_to_american_bounded (p : Q) :
  (-99999900 <= Io.prob_to_american p <= -100)%Z \/
  (100 <= Io.prob_to_american p <= 99999900)%Z.
Proof.
  unfold Io.prob_to_american. cbv zeta.
  pose proof (clamp_range p) as [Hlo Hhi].
  set (c := pymin (pymax p eps) (1 - eps)) in *.
  assert (Hc1 : c < 1) by (unfold eps in Hhi; lra).
  assert (Hc0 : 0 < c) by (unfold eps in Hlo; lra).
  cmp_cases.
  - left. split.
    + apply py_round_ge_Z. apply favourite_ratio_floor. exact Hhi.
    + apply py_round_le_Z. apply favourite_ratio; assumption.
  - right. split.
    + apply py_round_ge_Z. apply underdog_ratio; assumption.
    + apply py_round_le_Z. apply underdog_ratio_ceil. exact Hlo.
Qed.

(** X4.  Inside the clamp of the modular helper the two fair-price helpers
    return the same price; at and beyond 0 and 1 the main one returns
    nothing while the modular one saturates at +/-99,999,900. *)
Theorem prob_to_american_agree (p : Q) :
  (eps <= p /\ p <= 1 - eps ->
   Core.prob_to_american (PNum p) = Some (Io.prob_to_american p)) /\
  (p <= 0 ->
   Core.prob_to_american (PNum p) = None /\ Io.prob_to_american p = 99999900%Z) /\
  (1 <= p ->
   Core.prob_to_american (PNum p) = None /\ Io.prob_to_american p = (-99999900)%Z).
Proof.
  split; [| split].
  - intros [Hlo Hhi]. rewrite io_prob_to_american_inside by assumption.
    unfold Core.prob_to_american, eps in *.
    cmp_cases; cbn [orb]; try reflexivity; exfalso; lra.
  - intros H. split.
    + unfold Core.prob_to_american.
      cmp_cases; cbn [orb]; try reflexivity; exfalso; lra.
    + assert (Hm : pymax p eps = eps)
        by (unfold pymax, eps; cmp_cases; [reflexivity | exfalso; lra]).
      unfold Io.prob_to_american. cbv zeta. rewrite Hm. reflexivity.
  - intros H. split.
    + unfold Core.prob_to_american.
      cmp_cases; cbn [orb]; try reflexivity; exfalso; lra.
    + assert (Hm : pymin (pymax p eps) (1 - eps) = 1 - eps).
      { assert (Hx : pymax p eps = p)
          by (unfold pymax, eps; cmp_cases; [exfalso; lra | reflexivity]).
        rewrite Hx. unfold pymin, eps. cmp_cases; [reflexivity | exfalso; lra]. }
      unfold Io.prob_to_american. cbv zeta. rewrite Hm. reflexivity.
Qed.

Lemma prob_to_american_agree_witness :
  Core.prob_to_american (PNum (2 # 5)) = Some (Io.prob_to_american (2 # 5)).
Proof.
  apply (proj1 (prob_to_american_agree (2 # 5))). split; discriminate.
Defined.

(** X5.  An integer price at or below -100, or above +100, survives the
    round trip through its implied probability exactly (for the modular
    helper up to a magnitude of 99,999,900). *)
Theorem integer_price_round_trip (z : Z) :
  (100 < z \/ z <= -100)%Z ->
  exists p,
    Core.american_to_prob (PNum (inject_Z z)) = Some p /\
    Core.prob_to_american (PNum p) = Some z /\
    ((-99999900 <= z <= 99999900)%Z ->
     Io.prob_to_american (Io.american_to_implied (inject_Z z)) = z).
Proof.
  intros [H | H].
  - assert (Hq : 100 < inject_Z z) by (change 100 with (inject_Z 100); rewrite <- Zlt_Qlt; lia).
    destruct (core_round_trip_pos (inject_Z z) Hq) as (w & Hw & Hnear).
    apply near_integers_equal in Hnear. subst w.
    eexists. split; [apply american_to_prob_pos; lra |].
    split; [exact Hw |]. intros [_ Hmax].
    apply near_integers_equal. apply io_round_trip_pos; [exact Hq |].
    change 99999900 with (inject_Z 99999900). rewrite <- Zle_Qle. exact Hmax.
  - assert (Hq : inject_Z z <= -100) by (change (-100) with (inject_Z (-100)); rewrite <- Zle_Qle; lia).
    destruct (core_round_trip_neg (inject_Z z) Hq) as (w & Hw & Hnear).
    apply near_integers_equal in Hnear. subst w.
    eexists. split; [apply american_to_prob_neg; lra |].
    split; [exact Hw |]. intros [Hmin _].
    apply near_integers_equal. apply io_round_trip_neg; [exact Hq |].
    change (-99999900) with (inject_Z (-99999900)). rewrite <- Zle_Qle. exact Hmin.
Qed.

Lemma integer_price_round_trip_witness :
  exists p,
    Core.american_to_prob (PNum (inject_Z (-115))) = Some p /\
    Core.prob_to_american (PNum p) = Some (-115)%Z /\
    ((-99999900 <= -115 <= 99999900)%Z ->
     Io.prob_to_american (Io.american_to_implied (inject_Z (-115))) = (-115)%Z).
Proof.
  apply (integer_price_round_trip (-115)). right. discriminate.
Defined.

(** ** Expected value and stake of the main pipeline *)

Section EdgeFacts.

Variables p price : Q.
Hypothesis price_nonzero : ~ price == 0.

Lemma ev_from_prob_value :
  Core.ev_from_prob (PNum price) (PNum p) =
    Some (PNum (p * (Io.american_to_decimal price - 1) - (1 - p) * 1)).
Proof.
  unfold Core.ev_from_prob, Io.american_to_decimal, pydiv.
  destruct (Qlt_bool 0 price) eqn:Hpos.
  - apply Qlt_bool_iff in Hpos.
    assert (Hneg : Qlt_bool price 0 = false) by (apply Qlt_bool_false; lra).
    rewrite Hneg. reflexivity.
  - apply Qlt_bool_false in Hpos.
    assert (Hlt : price < 0).
    { destruct (Qlt_le_dec price 0) as [Hlt | Hge]; [exact Hlt |].
      exfalso. apply price_nonzero. lra. }
    assert (Hneg : Qlt_bool price 0 = true) by (apply Qlt_bool_iff; exact Hlt).
    rewrite Hneg.
    destruct (Qeq_bool (Qabs price) 0) eqn:Hz; [| reflexivity].
    apply Qeq_bool_iff in Hz. rewrite (Qabs_neg price) in Hz by lra.
    exfalso. lra.
Qed.

Lemma core_kelly_fraction_value :
  0 < p -> p < 1 ->
  Core.kelly_fraction (PNum price) (PNum p) =
    Some (PNum (pymax 0 ((Spec.profit_multiplier price * p - (1 - p))
                         / Spec.profit_multiplier price))).
Proof.
  intros H0 H1.
  pose proof (kelly_fraction_value p price price_nonzero) as Hk.
  unfold Kelly.kelly_fraction in Hk. unfold Core.kelly_fraction.
  assert (Hr : (Qle_bool p 0 || Qle_bool 1 p)%bool = false).
  { apply orb_false_iff. split; apply Qle_bool_false; assumption. }
  rewrite Hr.
  destruct (if Qlt_bool 0 price then Some (price / 100) else pydiv 100 (Qabs price))
    as [b |]; [| discriminate Hk].
  cbv zeta in Hk |- *.
  destruct (pydiv (b * p - (1 - p)) b) as [f |]; [| discriminate Hk].
  injection Hk as Hk. now rewrite Hk.
Qed.

(** The stake before flooring is the expected value per unit of profit
    multiplier. *)
Lemma kelly_is_ev_over_b :
  (Spec.profit_multiplier price * p - (1 - p)) / Spec.profit_multiplier price
  * Spec.profit_multiplier price
  == p * (Io.american_to_decimal price - 1) - (1 - p) * 1.
Proof.
  pose proof (profit_multiplier_pos price price_nonzero) as Hb.
  rewrite (american_to_decimal_b price price_nonzero). field. lra.
Qed.

End EdgeFacts.

(** X6.  For a non-zero price, [ev_from_prob] is the decimal odds times the
    win probability minus one, that is the decimal odds times the
    probability delta against the implied probability; so the two forms of
    the edge always have the same sign and vanish together. *)
Theorem ev_from_prob_is_scaled_edge (price p : Q) :
  ~ price == 0 ->
  exists ev,
    Core.ev_from_prob (PNum price) (PNum p) = Some (PNum ev) /\
    ev == p * Io.american_to_decimal price - 1 /\
    ev == Io.american_to_decimal price * (p - Io.american_to_implied price) /\
    (0 < ev <-> Io.american_to_implied price < p) /\
    (ev == 0 <-> p == Io.american_to_implied price).
Proof.
  intros Hnz. rewrite (ev_from_prob_value p price Hnz).
  eexists. split; [reflexivity |].
  pose proof (american_to_decimal_range price) as (Hd & _ & _ & Hinv).
  set (d := Io.american_to_decimal price) in *.
  set (i := Io.american_to_implied price) in *.
  assert (H1 : p * (d - 1) - (1 - p) * 1 == p * d - 1) by ring.
  assert (H2 : p * d - 1 == d * (p - i)).
  { assert (He : d * (p - i) == p * d - i * d) by ring. rewrite He, Hinv. ring. }
  split; [exact H1 |]. split; [rewrite H1; exact H2 |].
  rewrite H1, H2. split; split; intros H; nra.
Qed.

Lemma ev_from_prob_is_scaled_edge_witness :
  exists ev,
    Core.ev_from_prob (PNum (-120)) (PNum (589 # 1000)) = Some (PNum ev) /\
    ev == (589 # 1000) * Io.american_to_decimal (-120) - 1 /\
    ev == Io.american_to_decimal (-120) * ((589 # 1000) - Io.american_to_implied (-120)) /\
    (0 < ev <-> Io.american_to_implied (-120) < 589 # 1000) /\
    (ev == 0 <-> 589 # 1000 == Io.american_to_implied (-120)).
Proof.
  apply (ev_from_prob_is_scaled_edge (-120) (589 # 1000)). discriminate.
Defined.

(** X7.  For a probability strictly between 0 and 1 and a non-zero price,
    [kelly_fraction] of the main pipeline returns a stake that is at least
    0 and below the win probability, hence below the whole bankroll, and
    that is positive exactly when the expected value is. *)
Theorem core_kelly_fraction_range (price p : Q) :
  ~ price == 0 -> 0 < p -> p < 1 ->
  exists k ev,
    Core.kelly_fraction (PNum price) (PNum p) = Some (PNum k) /\
    Core.ev_from_prob (PNum price) (PNum p) = Some (PNum ev) /\
    0 <= k /\ k < p /\
    (0 < k <-> 0 < ev) /\
    k * Spec.profit_multiplier price == Qmax 0 ev.
Proof.
  intros Hnz H0 H1.
  rewrite (core_kelly_fraction_value p price Hnz H0 H1).
  rewrite (ev_from_prob_value p price Hnz).
  do 2 eexists. split; [reflexivity |]. split; [reflexivity |].
  pose proof (profit_multiplier_pos price Hnz) as Hb.
  pose proof (kelly_is_ev_over_b p price Hnz) as Hev.
  set (b := Spec.profit_multiplier price) in *.
  set (f := (b * p - (1 - p)) / b) in *.
  set (ev := p * (Io.american_to_decimal price - 1) - (1 - p) * 1) in *.
  assert (Hf : f == p - (1 - p) / b) by (unfold f; field; lra).
  assert (Hq : 0 < (1 - p) / b) by (apply Qlt_shift_div_l; lra).
  unfold pymax. cmp_cases.
  - split; [lra |]. split; [lra |]. split; [split; intros; nra |].
    rewrite Hev. symmetry. apply Q.max_r. nra.
  - split; [lra |]. split; [lra |]. split; [split; intros; [lra | nra] |].
    assert (Hz : 0 * b == 0) by ring. rewrite Hz. symmetry. apply Q.max_l. nra.
Qed.

Lemma core_kelly_fraction_range_witness :
  exists k ev,
    Core.kelly_fraction (PNum 150) (PNum (1 # 2)) = Some (PNum k) /\
    Core.ev_from_prob (PNum 150) (PNum (1 # 2)) = Some (PNum ev) /\
    0 <= k /\ k < 1 # 2 /\
    (0 < k <-> 0 < ev) /\
    k * Spec.profit_multiplier 150 == Qmax 0 ev.
Proof.
  apply (core_kelly_fraction_range 150 (1 # 2)); [discriminate | reflexivity | reflexivity].
Defined.

(** X8.  The two pipelines size the same stake: for a probability strictly
    between 0 and 1 and a non-zero price, [kelly_fraction] of the main
    pipeline and of [kelly.py] (which takes its arguments in the other
    order) return the same fraction, and so do their capped versions.  For
    a probability outside that range the main pipeline stakes
    [min(cap, 0)]. *)
Theorem kelly_pipelines_agree (price p cap : Q) :
  (~ price == 0 -> 0 < p -> p < 1 ->
   exists k,
     Core.kelly_fraction (PNum price) (PNum p) = Some (PNum k) /\
     Kelly.kelly_fraction p price = Some k /\
     exists c1 c2,
       Core.capped_kelly cap (PNum price) (PNum p) = Some c1 /\
       Kelly.capped_kelly p price cap = Some c2 /\
       c1 == c2) /\
  (p <= 0 \/ 1 <= p ->
   Core.kelly_fraction (PNum price) (PNum p) = Some PNone /\
   Core.capped_kelly cap (PNum price) (PNum p) = Some (pymin cap 0)).
Proof.
  split.
  - intros Hnz H0 H1.
    eexists. split; [apply core_kelly_fraction_value; assumption |].
    split; [apply kelly_fraction_value; assumption |].
    unfold Core.capped_kelly, Kelly.capped_kelly.
    rewrite (core_kelly_fraction_value p price Hnz H0 H1).
    rewrite (kelly_fraction_value p price Hnz).
    do 2 eexists. split; [reflexivity |]. split; [reflexivity |].
    rewrite !pymin_Qmin. apply Q.min_comm.
  - intros H.
    assert (Hk : Core.kelly_fraction (PNum price) (PNum p) = Some PNone).
    { unfold Core.kelly_fraction.
      assert (Hr : (Qle_bool p 0 || Qle_bool 1 p)%bool = true).
      { apply orb_true_iff. destruct H; [left | right]; now apply Qle_bool_iff. }
      now rewrite Hr. }
    split; [exact Hk |]. unfold Core.capped_kelly. now rewrite Hk.
Qed.

Lemma kelly_pipelines_agree_witness :
  exists k,
    Core.kelly_fraction (PNum (-120)) (PNum (3 # 5)) = Some (PNum k) /\
    Kelly.kelly_fraction (3 # 5) (-120) = Some k /\
    exists c1 c2,
      Core.capped_kelly (1 # 20) (PNum (-120)) (PNum (3 # 5)) = Some c1 /\
      Kelly.capped_kelly (3 # 5) (-120) (1 # 20) = Some c2 /\
      c1 == c2.
Proof.
  apply (proj1 (kelly_pipelines_agree (-120) (3 # 5) (1 # 20)));
    [discriminate | reflexivity | reflexivity].
Defined.

(** ** Edges, labels and recommendations *)

(** X9.  In [eval_yardage] the edges of the two sides of one line add up
    to one minus the sum of the two implied probabilities; against a book
    whose implied probabilities sum to at least 1 the Over and the Under
    cannot both have a positive edge. *)
Theorem two_sided_edges_sum (norm_cdf : Q -> Q) (mean sd line odds_over odds_under : Q) :
  let (p_over, p_under) := Markets.yardage_probs norm_cdf mean sd line in
  exists eo eu,
    snd (Pricing.price_row "Over" (Some p_over) (Some p_under) odds_over odds_under)
      = Some eo /\
    snd (Pricing.price_row "Under" (Some p_over) (Some p_under) odds_over odds_under)
      = Some eu /\
    eo + eu == 1 - (Io.american_to_implied odds_over + Io.american_to_implied odds_under) /\
    (1 <= Io.american_to_implied odds_over + Io.american_to_implied odds_under ->
     ~ (0 < eo /\ 0 < eu)).
Proof.
  rewrite yardage_probs_value. unfold Pricing.price_row.
  change (String.eqb "Over" "Over") with true.
  change (String.eqb "Under" "Over") with false.
  cbn [snd]. do 2 eexists. split; [reflexivity |]. split; [reflexivity |].
  split; [ring |]. intros Hbook [H1 H2]. lra.
Qed.

Lemma two_sided_edges_sum_witness :
  let (p_over, p_under) :=
    Markets.yardage_probs (fun z => clip 0 1 ((1 # 2) + z / 4)) 60 20 (111 # 2) in
  exists eo eu,
    snd (Pricing.price_row "Over" (Some p_over) (Some p_under) (-120) 100) = Some eo /\
    snd (Pricing.price_row "Under" (Some p_over) (Some p_under) (-120) 100) = Some eu /\
    eo + eu == 1 - (Io.american_to_implied (-120) + Io.american_to_implied 100) /\
    (1 <= Io.american_to_implied (-120) + Io.american_to_implied 100 ->
     ~ (0 < eo /\ 0 < eu)).
Proof.
  exact (two_sided_edges_sum (fun z => clip 0 1 ((1 # 2) + z / 4)) 60 20 (111 # 2) (-120) 100).
Defined.





(** X11.  [reco_row] on two numeric edges recommends the Over only when
    its edge is strictly the larger, so a tie goes to the Under, and
    colours the row by the larger of the two edges: GREEN from
    [edge_green] up, else AMBER from [edge_amber] up, else RED. *)
Theorem reco_row_choice (edge_green edge_amber eo eu : Q) :
  exists s t,
    Core.reco_row edge_green edge_amber (PNum eo) (PNum eu) = Core.Bet s t /\
    (s = Core.Over <-> eu < eo) /\
    (t = Core.GREEN <-> edge_green <= Qmax eo eu) /\
    (t = Core.AMBER <-> Qmax eo eu < edge_green /\ edge_amber <= Qmax eo eu) /\
    (t = Core.RED <-> Qmax eo eu < edge_green /\ Qmax eo eu < edge_amber).
Proof.
  unfold Core.reco_row, Core.fgt. cbv zeta.
  destruct (Qlt_bool eu eo) eqn:Hc.
  - apply Qlt_bool_iff in Hc.
    assert (Hm : Qmax eo eu == eo) by (apply Q.max_l; lra).
    unfold Core.fge.
    cmp_cases; do 2 eexists; (split; [reflexivity |]);
      repeat split; intros; try discriminate; try reflexivity; try lra;
      exfalso; lra.
  - apply Qlt_bool_false in Hc.
    assert (Hm : Qmax eo eu == eu) by (apply Q.max_r; exact Hc).
    unfold Core.fge.
    cmp_cases; do 2 eexists; (split; [reflexivity |]);
      repeat split; intros; try discriminate; try reflexivity; try lra;
      exfalso; lra.
Qed.

Lemma reco_row_choice_witness :
  exists s t,
    Core.reco_row (4 # 100) (1 # 100) (PNum (5 # 100)) (PNum (5 # 100)) = Core.Bet s t /\
    (s = Core.Over <-> 5 # 100 < 5 # 100) /\
    (t = Core.GREEN <-> 4 # 100 <= Qmax (5 # 100) (5 # 100)) /\
    (t = Core.AMBER <->
     Qmax (5 # 100) (5 # 100) < 4 # 100 /\ 1 # 100 <= Qmax (5 # 100) (5 # 100)) /\
    (t = Core.RED <->
     Qmax (5 # 100) (5 # 100) < 4 # 100 /\ Qmax (5 # 100) (5 # 100) < 1 # 100).
Proof.
  exact (reco_row_choice (4 # 100) (1 # 100) (5 # 100) (5 # 100)).
Defined.

(** X12.  A row is a ["Pass"] only when both edges are [None].  When the
    Under price is missing (NaN), its expected value is NaN and the row is
    labelled Under and RED whatever the Over edge is, because every
    comparison with a NaN is false. *)
Theorem reco_row_missing_under (edge_green edge_amber : Q) (eo eu p_under : pyval) :
  (Core.reco_row edge_green edge_amber eo eu = Core.Pass <-> eo = PNone /\ eu = PNone) /\
  (p_under <> PNone ->
   Core.ev_from_prob PNaN p_under = Some PNaN /\
   Core.reco_row edge_green edge_amber eo PNaN = Core.Bet Core.Under Core.RED).
Proof.
  split.
  - split.
    + unfold Core.reco_row. cbv zeta.
      destruct eo, eu; try (split; reflexivity);
        match goal with
        | |- context [if ?c then (Core.Over, _) else _] => destruct c
        end; discriminate.
    + intros [-> ->]. reflexivity.
  - intros Hp. split.
    + destruct p_under; [congruence | reflexivity | reflexivity].
    + destruct eo; reflexivity.
Qed.

Lemma reco_row_missing_under_witness :
  Core.ev_from_prob PNaN (PNum (2 # 5)) = Some PNaN /\
  Core.reco_row (4 # 100) (1 # 100) (PNum (1 # 2)) PNaN = Core.Bet Core.Under Core.RED.
Proof.
  apply (proj2 (reco_row_missing_under (4 # 100) (1 # 100) (PNum (1 # 2)) PNone
                  (PNum (2 # 5)))).
  discriminate.
Defined.

(** ** Context adjustments *)

Lemma adjusted_sd_factors (r : Features.row) (m : Features.mods) (cfg : Cfg.volatility)
    (mu sd0 : Q) :
  Features.mean r = Some mu -> Features.sd r = Some sd0 ->
  exists (windy cold pressure low_qb : bool) (sd' : Q),
    snd (Features.adjusted_mu_sd r m cfg) = PNum sd' /\
    sd' == sd0
           * (if windy then 1 + Cfg.wind_sd_widen cfg else 1)
           * (if cold then 1 + Cfg.cold_sd_widen cfg else 1)
           * (if pressure then 1 + Cfg.widen_sd_if_pressure_top10 cfg else 1)
           * (if low_qb then 1 + Cfg.widen_sd_if_qb_lowtier cfg else 1).
Proof.
  intros Hmu Hsd. unfold Features.adjusted_mu_sd. rewrite Hmu, Hsd. cbv zeta. cbn [snd].
  unfold Markets.widen_for_low_qb, Markets.widen_for_pressure.
  eexists _, _, _, _, _. split; [reflexivity |].
  rewrite !widen_flag, weather_penalty_value. ring.
Qed.

(** X13.  With no feed data at all (empty team dictionaries and flag sets,
    no usage entry, weather entries missing or NaN) and thresholds that the
    defaults 0 mph and 55 F do not reach, [adjusted_mu_sd] returns the
    prior mean and sd unchanged. *)
Theorem adjusted_mu_sd_neutral (r : Features.row) (cfg : Cfg.volatility) (mu sd0 : Q) :
  Features.mean r = Some mu -> Features.sd r = Some sd0 ->
  Features.snap_adj r = Absent -> Features.share_adj r = Absent ->
  Features.temp_f r = NaN \/
    (Features.temp_f r = Absent /\ Cfg.cold_threshold_f cfg < 55) ->
  Features.wind_mph r = NaN \/
    (Features.wind_mph r = Absent /\ 0 < Cfg.wind_threshold_mph cfg) ->
  exists mu' sd',
    Features.adjusted_mu_sd r
      {| Features.pace := ∅; Features.proe := ∅; Features.off_epa := ∅;
         Features.top10_pressure := ∅; Features.low_tier_qb := ∅ |} cfg
      = (PNum mu', PNum sd') /\
    mu' == mu /\ sd' == sd0.
Proof.
  intros Hmu Hsd Hsnap Hshare Htemp Hwind.
  unfold Features.adjusted_mu_sd. rewrite Hmu, Hsd, Hsnap, Hshare. cbv zeta.
  cbn [Features.pace Features.proe Features.off_epa Features.top10_pressure
       Features.low_tier_qb get fmul Features.of_float].
  rewrite !lookup_empty. cbn [default].
  rewrite !bool_decide_eq_false_2 by set_solver.
  assert (Hlow : (if str_in "passing" (lower (Features.market r)) then false else false)
                 = false) by (destruct (str_in _ _); reflexivity).
  rewrite Hlow.
  assert (Hw : Markets.weather_penalty (get (Features.temp_f r) 55)
                 (get (Features.wind_mph r) 0) cfg == 1).
  { rewrite weather_penalty_value.
    destruct Htemp as [-> | [-> Hc]], Hwind as [-> | [-> Hwd]]; cbn [get];
      cmp_cases; try ring; exfalso; lra. }
  do 2 eexists. split; [reflexivity |]. split; [ring |].
  unfold Markets.widen_for_low_qb, Markets.widen_for_pressure. rewrite Hw. ring.
Qed.

Lemma adjusted_mu_sd_neutral_witness :
  exists mu' sd',
    Features.adjusted_mu_sd
      {| Features.mean := Some 60; Features.sd := Some 20;
         Features.team := "buf"; Features.player := "J. Cook";
         Features.market := "rushing_yards"; Features.opp := None;
         Features.snap_adj := Absent; Features.share_adj := Absent;
         Features.temp_f := NaN; Features.wind_mph := Absent |}
      {| Features.pace := ∅; Features.proe := ∅; Features.off_epa := ∅;
         Features.top10_pressure := ∅; Features.low_tier_qb := ∅ |} Scenario.vol
      = (PNum mu', PNum sd') /\
    mu' == 60 /\ sd' == 20.
Proof.
  apply (adjusted_mu_sd_neutral
           {| Features.mean := Some 60; Features.sd := Some 20;
              Features.team := "buf"; Features.player := "J. Cook";
              Features.market := "rushing_yards"; Features.opp := None;
              Features.snap_adj := Absent; Features.share_adj := Absent;
              Features.temp_f := NaN; Features.wind_mph := Absent |}
           Scenario.vol 60 20);
    try reflexivity.
  - left. reflexivity.
  - right. split; reflexivity.
Defined.

(** X14.  When the four widening knobs are non-negative, the adjusted sd
    of a non-negative prior sd is never below the prior sd and never above
    the prior sd widened by all four knobs at once. *)
Theorem wideners_never_shrink (r : Features.row) (m : Features.mods)
    (cfg : Cfg.volatility) (mu sd0 : Q) :
  Features.mean r = Some mu -> Features.sd r = Some sd0 ->
  0 <= sd0 ->
  0 <= Cfg.wind_sd_widen cfg -> 0 <= Cfg.cold_sd_widen cfg ->
  0 <= Cfg.widen_sd_if_pressure_top10 cfg -> 0 <= Cfg.widen_sd_if_qb_lowtier cfg ->
  exists sd',
    snd (Features.adjusted_mu_sd r m cfg) = PNum sd' /\
    sd0 <= sd' /\
    sd' <= sd0 * (1 + Cfg.wind_sd_widen cfg) * (1 + Cfg.cold_sd_widen cfg)
           * (1 + Cfg.widen_sd_if_pressure_top10 cfg)
           * (1 + Cfg.widen_sd_if_qb_lowtier cfg).
Proof.
  intros Hmu Hsd H0 Hw Hc Hp Hq.
  destruct (adjusted_sd_factors r m cfg mu sd0 Hmu Hsd)
    as (windy & cold & pressure & low_qb & sd' & Hrun & Hval).
  exists sd'. split; [exact Hrun |].
  set (w := Cfg.wind_sd_widen cfg) in *. set (c := Cfg.cold_sd_widen cfg) in *.
  set (g := Cfg.widen_sd_if_pressure_top10 cfg) in *.
  set (q := Cfg.widen_sd_if_qb_lowtier cfg) in *.
  set (fw := if windy then 1 + w else 1) in *.
  set (fc := if cold then 1 + c else 1) in *.
  set (fg := if pressure then 1 + g else 1) in *.
  set (fq := if low_qb then 1 + q else 1) in *.
  assert (Hfw : 1 <= fw <= 1 + w) by (unfold fw; destruct windy; lra).
  assert (Hfc : 1 <= fc <= 1 + c) by (unfold fc; destruct cold; lra).
  assert (Hfg : 1 <= fg <= 1 + g) by (unfold fg; destruct pressure; lra).
  assert (Hfq : 1 <= fq <= 1 + q) by (unfold fq; destruct low_qb; lra).
  assert (H1 : sd0 <= sd0 * fw <= sd0 * (1 + w)) by nra.
  assert (H2 : sd0 <= sd0 * fw * fc <= sd0 * (1 + w) * (1 + c)) by nra.
  assert (H3 : sd0 <= sd0 * fw * fc * fg <= sd0 * (1 + w) * (1 + c) * (1 + g)) by nra.
  rewrite Hval. split; nra.
Qed.

Lemma wideners_never_shrink_witness :
  exists sd',
    snd (Features.adjusted_mu_sd Scenario.passing_row Scenario.feed Scenario.vol)
      = PNum sd' /\
    45 <= sd' /\
    sd' <= 45 * (1 + (5 # 100)) * (1 + (3 # 100)) * (1 + (4 # 100)) * (1 + (6 # 100)).
Proof.
  apply (wideners_never_shrink Scenario.passing_row Scenario.feed Scenario.vol 250 45);
    first [reflexivity | discriminate].
Defined.

(** X15.  The default of [row.get] only replaces a missing key: on a row
    whose snap or target-share entry is NaN (a frame that did not go
    through the [fillna] of [attach_context]) the adjusted mean is NaN,
    while the adjusted sd is still a number. *)
Theorem nan_usage_not_defaulted (r : Features.row) (m : Features.mods)
    (cfg : Cfg.volatility) (mu sd0 : Q) :
  Features.mean r = Some mu -> Features.sd r = Some sd0 ->
  Features.snap_adj r = NaN \/ Features.share_adj r = NaN ->
  exists sd', Features.adjusted_mu_sd r m cfg = (PNaN, PNum sd').
Proof.
  intros Hmu Hsd Hnan. unfold Features.adjusted_mu_sd. rewrite Hmu, Hsd. cbv zeta.
  eexists. f_equal.
  destruct Hnan as [-> | ->]; cbn [get fmul Features.of_float]; [reflexivity |].
  destruct (get (Features.snap_adj r) 1); reflexivity.
Qed.

Lemma nan_usage_not_defaulted_witness :
  exists sd',
    Features.adjusted_mu_sd Scenario.passing_row Scenario.feed Scenario.vol
      = (PNaN, PNum sd').
Proof.
  apply (nan_usage_not_defaulted Scenario.passing_row Scenario.feed Scenario.vol 250 45);
    [reflexivity | reflexivity | right; reflexivity].
Defined.





(** ** Selection and pricing of the parlay legs *)

Lemma df_head_firstn {A : Type} (n : Z) (l : list A) :
  exists k : nat, Parlays.df_head n l = firstn k l.
Proof.
  unfold Parlays.df_head. destruct (0 <=? n)%Z; eexists; reflexivity.
Qed.

(** The chosen legs are a prefix of the sorted frame. *)
Lemma chosen_prefix (b : Cfg.bucket) (pred_df : list Pred.row) :
  exists k : nat,
    (k <= 40)%nat /\
    Parlays.chosen b pred_df = firstn k (Parlays.sort_desc (Parlays.meets b pred_df)).
Proof.
  unfold Parlays.chosen, Parlays.pool.
  set (l := Parlays.sort_desc (Parlays.meets b pred_df)).
  destruct (df_head_firstn (Cfg.max_legs b) (Parlays.df_head 40 l)) as [k Hk].
  rewrite Hk. unfold Parlays.df_head. cbn [Z.leb Z.compare Z.to_nat Pos.to_nat].
  change (Pos.iter_op Init.Nat.add 40 1%nat) with 40%nat.
  rewrite firstn_firstn. exists (Nat.min k 40). split; [lia | reflexivity].
Qed.

Lemma insert_desc_sorted (x : Pred.row) (l : list Pred.row) :
  StronglySorted (fun a c => Pred.edge_pct c <= Pred.edge_pct a) l ->
  StronglySorted (fun a c => Pred.edge_pct c <= Pred.edge_pct a) (Parlays.insert_desc x l).
Proof.
  induction 1 as [| y ys Hs IH Hy]; cbn [Parlays.insert_desc].
  - constructor; constructor.
  - destruct (Qlt_bool (Pred.edge_pct x) (Pred.edge_pct y)) eqn:E.
    + apply Qlt_bool_iff in E. constructor; [exact IH |].
      eapply Permutation_Forall; [symmetry; apply insert_desc_perm |].
      constructor; [lra | exact Hy].
    + apply Qlt_bool_false in E. constructor; [constructor; assumption |].
      constructor; [exact E |].
      eapply Forall_impl; [exact Hy |]. cbv beta. intros z Hz. lra.
Qed.

Lemma sort_desc_sorted (l : list Pred.row) :
  StronglySorted (fun a c => Pred.edge_pct c <= Pred.edge_pct a) (Parlays.sort_desc l).
Proof.
  induction l as [| x l IH]; [constructor |].
  cbn [Parlays.sort_desc fold_right]. fold (Parlays.sort_desc l).
  now apply insert_desc_sorted.
Qed.

Lemma sorted_app_inv {A : Type} (R : A -> A -> Prop) (l1 l2 : list A) :
  StronglySorted R (l1 ++ l2) ->
  StronglySorted R l1 /\ forall x y, In x l1 -> In y l2 -> R x y.
Proof.
  induction l1 as [| a l1 IH]; cbn [app]; intros H.
  - split; [constructor | intros x y []].
  - apply StronglySorted_inv in H. destruct H as [Hs Ha].
    destruct (IH Hs) as [Hs1 Hcross].
    apply Forall_app in Ha. destruct Ha as [Ha1 Ha2].
    split; [constructor; assumption |].
    intros x y [<- | Hx] Hy; [| now apply Hcross].
    rewrite Forall_forall in Ha2. apply Ha2. now apply list_elem_of_In.
Qed.

(** X18.  A parlay never has more than 40 legs nor more legs than rows at
    or above the threshold, and, for a non-negative [max_legs], never more
    than [max_legs]. *)
Theorem chosen_leg_count (b : Cfg.bucket) (pred_df : list Pred.row) :
  (length (Parlays.chosen b pred_df) <= 40)%nat /\
  (length (Parlays.chosen b pred_df) <= length (Parlays.meets b pred_df))%nat /\
  (length (Parlays.meets b pred_df) <= length pred_df)%nat /\
  ((0 <= Cfg.max_legs b)%Z ->
   (length (Parlays.chosen b pred_df) <= Z.to_nat (Cfg.max_legs b))%nat).
Proof.
  destruct (chosen_prefix b pred_df) as (k & Hk & Hc).
  assert (Hlen : length (Parlays.sort_desc (Parlays.meets b pred_df))
                 = length (Parlays.meets b pred_df))
    by (apply Permutation_length, sort_desc_perm).
  split; [| split; [| split]].
  - rewrite Hc, length_take. lia.
  - rewrite Hc, length_take. lia.
  - unfold Parlays.meets. apply List.filter_length_le.
  - intros Hn. unfold Parlays.chosen, Parlays.df_head at 1.
    destruct (0 <=? Cfg.max_legs b)%Z eqn:E; [| apply Z.leb_gt in E; lia].
    rewrite length_take. lia.
Qed.

Lemma chosen_leg_count_witness :
  (length (Parlays.chosen Scenario.two_leg
             [Scenario.leg_a; Scenario.leg_b; Scenario.leg_sure])
   <= Z.to_nat (Cfg.max_legs Scenario.two_leg))%nat.
Proof.
  apply (proj2 (proj2 (proj2 (chosen_leg_count Scenario.two_leg
                                [Scenario.leg_a; Scenario.leg_b; Scenario.leg_sure])))).
  discriminate.
Defined.

(** X19.  The chosen legs are in descending order of edge and they are the
    top edges: the rows at or above the threshold split into the chosen
    legs and a rest, and no row of the rest has a larger edge than a chosen
    leg. *)
Theorem chosen_are_top_edges (b : Cfg.bucket) (pred_df : list Pred.row) :
  StronglySorted (fun x y => Pred.edge_pct y <= Pred.edge_pct x)
    (Parlays.chosen b pred_df) /\
  exists rest,
    Permutation (Parlays.meets b pred_df) (Parlays.chosen b pred_df ++ rest) /\
    forall x y, In x (Parlays.chosen b pred_df) -> In y rest ->
                Pred.edge_pct y <= Pred.edge_pct x.
Proof.
  destruct (chosen_prefix b pred_df) as (k & _ & Hc). rewrite Hc.
  set (l := Parlays.sort_desc (Parlays.meets b pred_df)).
  pose proof (sort_desc_sorted (Parlays.meets b pred_df)) as Hs. fold l in Hs.
  rewrite <- (firstn_skipn k l) in Hs.
  apply sorted_app_inv in Hs. destruct Hs as [Hs1 Hcross].
  split; [exact Hs1 |].
  exists (skipn k l). split; [| exact Hcross].
  rewrite firstn_skipn. symmetry. apply sort_desc_perm.
Qed.

Lemma chosen_are_top_edges_witness :
  StronglySorted (fun x y => Pred.edge_pct y <= Pred.edge_pct x)
    (Parlays.chosen Scenario.two_leg [Scenario.leg_b; Scenario.leg_sure; Scenario.leg_a]) /\
  exists rest,
    Permutation (Parlays.meets Scenario.two_leg
                   [Scenario.leg_b; Scenario.leg_sure; Scenario.leg_a])
      (Parlays.chosen Scenario.two_leg
         [Scenario.leg_b; Scenario.leg_sure; Scenario.leg_a] ++ rest) /\
    forall x y,
      In x (Parlays.chosen Scenario.two_leg
              [Scenario.leg_b; Scenario.leg_sure; Scenario.leg_a]) ->
      In y rest -> Pred.edge_pct y <= Pred.edge_pct x.
Proof.
  exact (chosen_are_top_edges Scenario.two_leg
           [Scenario.leg_b; Scenario.leg_sure; Scenario.leg_a]).
Defined.

Lemma Qpower_succ_nat (a : Q) (n : nat) :
  a ^ Z.of_nat (S n) == a * a ^ Z.of_nat n.
Proof.
  replace (Z.of_nat (S n)) with (1 + Z.of_nat n)%Z by lia.
  rewrite Qpower_plus' by lia. reflexivity.
Qed.

Lemma product_over_scaled {A : Type} (f : A -> Q) (c : Q) (l : list A) :
  Spec.product_over (fun x => f x * c) l
  == c ^ Z.of_nat (length l) * Spec.product_over f l.
Proof.
  induction l as [| x l IH]; [reflexivity |].
  cbn [Spec.product_over fold_right length].
  fold (Spec.product_over (fun x => f x * c) l) (Spec.product_over f l).
  rewrite IH, Qpower_succ_nat. ring.
Qed.

(** X20.  The correlation penalty compounds with the number of legs: the
    combined probability of a non-empty pool is the penalty raised to the
    number of chosen legs, times the product of the clipped leg
    probabilities. *)
Theorem parlay_penalty_compounds (pred_df : list Pred.row) (pen : Q) (b : Cfg.bucket) :
  (exists r, In r pred_df /\ Parlays.min_edge b <= Pred.edge_pct r) ->
  let res := Parlays.parlay_of pred_df pen b in
  Parlays.parlay_prob res ==
    pen ^ Z.of_nat (length (Parlays.legs res))
    * Spec.product_over (fun r => clip (1 # 1000) (999 # 1000) (Pred.side_prob r))
        (Parlays.legs res).
Proof.
  intros Hex. apply pool_nonempty in Hex. cbv zeta.
  rewrite (parlay_of_legs pred_df pen b Hex). cbv zeta.
  cbn [Parlays.legs Parlays.parlay_prob].
  rewrite prod_map_product_over. apply product_over_scaled.
Qed.

Lemma parlay_penalty_compounds_witness :
  let res :=
    Parlays.parlay_of [Scenario.leg_a; Scenario.leg_b] (95 # 100) Scenario.two_leg in
  Parlays.parlay_prob res ==
    (95 # 100) ^ Z.of_nat (length (Parlays.legs res))
    * Spec.product_over (fun r => clip (1 # 1000) (999 # 1000) (Pred.side_prob r))
        (Parlays.legs res).
Proof.
  apply (parlay_penalty_compounds [Scenario.leg_a; Scenario.leg_b] (95 # 100)
           Scenario.two_leg).
  exists Scenario.leg_a. split; [left; reflexivity | vm_compute; discriminate].
Defined.

(** X21.  A bucket with [max_legs = 0] and at least one row at or above
    its threshold does not get the empty-bucket sentinel: it gets a row
    without legs whose probability and decimal odds are the empty products
    1 and whose EV is 0. *)
Theorem zero_legs_is_not_sentinel (pred_df : list Pred.row) (pen : Q) (b : Cfg.bucket) :
  (exists r, In r pred_df /\ Parlays.min_edge b <= Pred.edge_pct r) ->
  Cfg.max_legs b = 0%Z ->
  let res := Parlays.parlay_of pred_df pen b in
  Parlays.legs res = [] /\
  Parlays.parlay_prob res = 1 /\
  Parlays.decimal_odds res = 1 /\
  Parlays.ev_per_unit res == 0 /\
  ~ Parlays.ev_per_unit res == -1.
Proof.
  intros Hex Hz. apply pool_nonempty in Hex. cbv zeta.
  rewrite (parlay_of_legs pred_df pen b Hex). cbv zeta.
  cbn [Parlays.legs Parlays.parlay_prob Parlays.decimal_odds Parlays.ev_per_unit].
  assert (Hc : Parlays.chosen b pred_df = []).
  { unfold Parlays.chosen. rewrite Hz. reflexivity. }
  rewrite Hc. cbn [List.map]. rewrite prod_nil.
  repeat split; discriminate.
Qed.

Lemma zero_legs_is_not_sentinel_witness :
  let res :=
    Parlays.parlay_of [Scenario.leg_a] (95 # 100)
      {| Cfg.name := "none"; Cfg.min_edge_pct := 2 # 100; Cfg.max_legs := 0 |} in
  Parlays.legs res = [] /\
  Parlays.parlay_prob res = 1 /\
  Parlays.decimal_odds res = 1 /\
  Parlays.ev_per_unit res == 0 /\
  ~ Parlays.ev_per_unit res == -1.
Proof.
  apply (zero_legs_is_not_sentinel [Scenario.leg_a] (95 # 100)
           {| Cfg.name := "none"; Cfg.min_edge_pct := 2 # 100; Cfg.max_legs := 0 |}).
  - exists Scenario.leg_a. split; [left; reflexivity | vm_compute; discriminate].
  - reflexivity.
Defined.

(** X22.  No bucket is reported below the sentinel: with a non-negative
    penalty and legs whose decimal odds are non-negative (those of
    [american_to_decimal] are at least 1), the EV of every row of the
    result is at least -1. *)
Theorem parlay_ev_at_least_sentinel (pred_df : list Pred.row) (pen : Q) (b : Cfg.bucket) :
  0 <= pen ->
  (forall r, In r pred_df -> 0 <= Pred.decimal_odds r) ->
  -1 <= Parlays.ev_per_unit (Parlays.parlay_of pred_df pen b).
Proof.
  intros Hpen Hodds.
  destruct (Parlays.pool b pred_df) as [| r0 l0] eqn:E.
  - rewrite (parlay_of_empty pred_df pen b E). cbn. discriminate.
  - assert (Hne : Parlays.pool b pred_df <> []) by (rewrite E; discriminate).
    rewrite (parlay_of_legs pred_df pen b Hne). cbv zeta. cbn [Parlays.ev_per_unit].
    rewrite !prod_map_product_over.
    assert (Hin : forall r, In r (Parlays.chosen b pred_df) -> In r pred_df).
    { intros r Hr. unfold Parlays.chosen in Hr. apply df_head_incl in Hr.
      now apply pool_In in Hr. }
    assert (Hnn : forall (f : Pred.row -> Q) (l : list Pred.row),
               (forall r, In r l -> 0 <= f r) -> 0 <= Spec.product_over f l).
    { intros f l. induction l as [| x l IH]; intros Hf; [discriminate |].
      cbn [Spec.product_over fold_right]. fold (Spec.product_over f l).
      assert (0 <= f x) by (apply Hf; now left).
      assert (0 <= Spec.product_over f l) by (apply IH; intros; apply Hf; now right).
      nra. }
    assert (H1 : 0 <= Spec.product_over
                        (fun r => clip (1 # 1000) (999 # 1000) (Pred.side_prob r) * pen)
                        (Parlays.chosen b pred_df)).
    { apply Hnn. intros r _.
      pose proof (clip_range (1 # 1000) (999 # 1000) (Pred.side_prob r)) as Hc.
      assert (1 # 1000 <= 999 # 1000) by discriminate. specialize (Hc H). nra. }
    assert (H2 : 0 <= Spec.product_over Pred.decimal_odds (Parlays.chosen b pred_df)).
    { apply Hnn. intros r Hr. apply Hodds. now apply Hin. }
    nra.
Qed.

Lemma parlay_ev_at_least_sentinel_witness :
  -1 <= Parlays.ev_per_unit
          (Parlays.parlay_of [Scenario.leg_a; Scenario.leg_b] (95 # 100) Scenario.two_leg).
Proof.
  apply (parlay_ev_at_least_sentinel [Scenario.leg_a; Scenario.leg_b] (95 # 100)
           Scenario.two_leg).
  - discriminate.
  - intros r [<- | [<- | []]]; discriminate.
Defined.

(** ** Market names and game identifiers *)

Lemma lower_upper_ascii (c : ascii) : lower_ascii (upper_ascii c) = lower_ascii c.
Proof. destruct c as [[] [] [] [] [] [] [] []]; reflexivity. Qed.

Lemma lower_lower_ascii (c : ascii) : lower_ascii (lower_ascii c) = lower_ascii c.
Proof. destruct c as [[] [] [] [] [] [] [] []]; reflexivity. Qed.

Lemma upper_upper_ascii (c : ascii) : upper_ascii (upper_ascii c) = upper_ascii c.
Proof. destruct c as [[] [] [] [] [] [] [] []]; reflexivity. Qed.

Lemma lower_upper (s : string) : lower (upper s) = lower s.
Proof.
  induction s as [| c s IH]; [reflexivity |].
  cbn [upper lower]. now rewrite lower_upper_ascii, IH.
Qed.

Lemma lower_lower (s : string) : lower (lower s) = lower s.
Proof.
  induction s as [| c s IH]; [reflexivity |].
  cbn [lower]. now rewrite lower_lower_ascii, IH.
Qed.

Lemma upper_upper (s : string) : upper (upper s) = upper s.
Proof.
  induction s as [| c s IH]; [reflexivity |].
  cbn [upper]. now rewrite upper_upper_ascii, IH.
Qed.

Lemma market_key_cases (m : string) :
  Pipeline.market_key m = "receiving_yards" \/
  Pipeline.market_key m = "receptions" \/
  Pipeline.market_key m = "rushing_yards" \/
  Pipeline.market_key m = "rush_attempts" \/
  Pipeline.market_key m = "passing_yards" \/
  Pipeline.market_key m = "anytime_td" \/
  Pipeline.market_key m = "other".
Proof.
  unfold Pipeline.market_key. cbv zeta.
  repeat match goal with
    | |- context [str_in ?a ?b] => destruct (str_in a b)
    end; cbn [andb]; tauto.
Qed.

(** X23.  [market_key] does not depend on the case of the market name, its
    seven keys are fixed points (classifying a key again changes nothing),
    and every market it classifies as passing yards is one on which
    [adjusted_mu_sd] applies the quarterback-tier test. *)
Theorem market_key_stable (m : string) :
  Pipeline.market_key (upper m) = Pipeline.market_key m /\
  Pipeline.market_key (lower m) = Pipeline.market_key m /\
  Pipeline.market_key (Pipeline.market_key m) = Pipeline.market_key m /\
  (Pipeline.market_key m = "passing_yards" -> str_in "passing" (lower m) = true).
Proof.
  split; [| split; [| split]].
  - unfold Pipeline.market_key. cbv zeta. now rewrite lower_upper.
  - unfold Pipeline.market_key. cbv zeta. now rewrite lower_lower.
  - destruct (market_key_cases m) as [H | [H | [H | [H | [H | [H | H]]]]]];
      rewrite H; reflexivity.
  - unfold Pipeline.market_key. cbv zeta.
    destruct (str_in "passing" (lower m)); [reflexivity |].
    repeat match goal with
      | |- context [str_in ?a ?b] => destruct (str_in a b)
      end; cbn [andb]; discriminate.
Qed.

Lemma market_key_stable_witness :
  str_in "passing" (lower "Passing Yards") = true.
Proof.
  apply (proj2 (proj2 (proj2 (market_key_stable "Passing Yards")))). reflexivity.
Defined.

(** X24.  [_extract_game_id] writes ["AWAY@HOME"] in upper case whatever
    the order of the two teams in the feed, and ["@HOME"] when the event
    lists no team other than the home team. *)
Theorem extract_game_id_order (home away : string)
    (bms : option (list Scrapers.bookmaker)) :
  upper away <> upper home ->
  Scrapers._extract_game_id
    {| Scrapers.home_team := Some home; Scrapers.teams := Some [home; away];
       Scrapers.bookmakers := bms |}
    = String.append (upper away) (String.append "@" (upper home)) /\
  Scrapers._extract_game_id
    {| Scrapers.home_team := Some home; Scrapers.teams := Some [away; home];
       Scrapers.bookmakers := bms |}
    = String.append (upper away) (String.append "@" (upper home)) /\
  Scrapers._extract_game_id
    {| Scrapers.home_team := Some home; Scrapers.teams := Some [home];
       Scrapers.bookmakers := bms |}
    = String.append "@" (upper home) /\
  Scrapers._extract_game_id
    {| Scrapers.home_team := Some home; Scrapers.teams := None;
       Scrapers.bookmakers := bms |}
    = String.append "@" (upper home).
Proof.
  intros Hne. unfold Scrapers._extract_game_id. cbv zeta.
  cbv [from_option id Scrapers.home_team Scrapers.teams].
  rewrite upper_upper. cbn [List.filter].
  assert (Hh : String.eqb (upper home) (upper home) = true) by apply String.eqb_refl.
  assert (Ha : String.eqb (upper away) (upper home) = false)
    by (apply String.eqb_neq; exact Hne).
  rewrite Hh, Ha. cbn [negb List.filter]. rewrite ?Hh, ?Ha. cbn [negb]. repeat split.
Qed.

Lemma extract_game_id_order_witness :
  Scrapers._extract_game_id
    {| Scrapers.home_team := Some "Buffalo Bills";
       Scrapers.teams := Some ["Buffalo Bills"; "Miami Dolphins"];
       Scrapers.bookmakers := None |}
    = "MIAMI DOLPHINS@BUFFALO BILLS".
Proof.
  assert (Hne : upper "Miami Dolphins" <> upper "Buffalo Bills") by discriminate.
  exact (proj1 (extract_game_id_order "Buffalo Bills" "Miami Dolphins" None Hne)).
Defined.

(** ** Straight and alternate lines of the odds feed *)





Section MarketBlock.

Variable outs : list Scrapers.outcome.




End MarketBlock.











Lemma add_outcome_over (d : list ((string * Q) * Scrapers.prices))
    (desc : string) (pl : option string) (po : Z) (pt : Q) :
  Py.is_empty (strip desc) = false ->
  Scrapers.add_outcome d
    {| Scrapers.description := Some desc; Scrapers.player := pl;
       Scrapers.name := Some "Over"; Scrapers.price := Some po;
       Scrapers.point := Some pt |}
  = Scrapers.upsert (strip desc, pt) (fun v => (Some po, snd v)) d.
Proof.
  intros Hname. destruct desc as [| c s]; [discriminate Hname |].
  unfold Scrapers.add_outcome. cbv zeta.
  cbn [Scrapers.description Scrapers.player Scrapers.name Scrapers.price
       Scrapers.point or_str].
  cbv [from_option id]. rewrite Hname. reflexivity.
Qed.

Lemma add_outcome_under (d : list ((string * Q) * Scrapers.prices))
    (desc : string) (pl : option string) (pu : Z) (pt : Q) :
  Py.is_empty (strip desc) = false ->
  Scrapers.add_outcome d
    {| Scrapers.description := Some desc; Scrapers.player := pl;
       Scrapers.name := Some "Under"; Scrapers.price := Some pu;
       Scrapers.point := Some pt |}
  = Scrapers.upsert (strip desc, pt) (fun v => (fst v, Some pu)) d.
Proof.
  intros Hname. destruct desc as [| c s]; [discriminate Hname |].
  unfold Scrapers.add_outcome. cbv zeta.
  cbn [Scrapers.description Scrapers.player Scrapers.name Scrapers.price
       Scrapers.point or_str].
  cbv [from_option id]. rewrite Hname. reflexivity.
Qed.

(** X27.  An Over and an Under outcome of the same player at the same
    point (equal as numbers) become one straight row carrying both prices;
    at two different points they become two alt rows, each with one price,
    and no straight row. *)
Theorem over_under_pair_rows (game_id book model_market desc : string)
    (pl : option string) (po pu : Z) (pt pt' : Q) :
  Py.is_empty (strip desc) = false ->
  let over :=
    {| Scrapers.description := Some desc; Scrapers.player := pl;
       Scrapers.name := Some "Over"; Scrapers.price := Some po;
       Scrapers.point := Some pt |} in
  let under :=
    {| Scrapers.description := Some desc; Scrapers.player := pl;
       Scrapers.name := Some "Under"; Scrapers.price := Some pu;
       Scrapers.point := Some pt' |} in
  let row l o u :=
    {| Scrapers.game_id := game_id; Scrapers.row_player := strip desc;
       Scrapers.team := EmptyString; Scrapers.row_market := model_market;
       Scrapers.line := l; Scrapers.odds_over := o; Scrapers.odds_under := u;
       Scrapers.book := book |} in
  (pt' == pt ->
   Scrapers.rows_of_outcomes game_id book model_market [over; under]
     = ([row pt (Some po) (Some pu)], [])) /\
  (~ pt' == pt ->
   Scrapers.rows_of_outcomes game_id book model_market [over; under]
     = ([], [row pt (Some po) None; row pt' None (Some pu)])).
Proof.
  intros Hname. cbv zeta.
  unfold Scrapers.rows_of_outcomes. cbv zeta. cbn [fold_left].
  rewrite (add_outcome_over _ _ _ _ _ Hname), (add_outcome_under _ _ _ _ _ Hname).
  cbn [Scrapers.upsert]. unfold Scrapers.key_eqb. cbn [fst snd].
  rewrite String.eqb_refl. cbn [andb].
  split; intros Hpt.
  - apply Qeq_bool_iff in Hpt. rewrite Hpt.
    unfold Scrapers.count_player. cbn [List.filter fst snd].
    rewrite String.eqb_refl. reflexivity.
  - apply Qeq_bool_false in Hpt. rewrite Hpt.
    unfold Scrapers.count_player. cbn [List.filter fst snd Scrapers.upsert].
    rewrite !String.eqb_refl. reflexivity.
Qed.

Lemma over_under_pair_rows_witness :
  Scrapers.rows_of_outcomes "MIA@BUF" "fanduel" "receiving_yards"
    [ {| Scrapers.description := Some " Stefon Diggs "; Scrapers.player := None;
         Scrapers.name := Some "Over"; Scrapers.price := Some (-115)%Z;
         Scrapers.point := Some (131 # 2) |};
      {| Scrapers.description := Some " Stefon Diggs "; Scrapers.player := None;
         Scrapers.name := Some "Under"; Scrapers.price := Some (-105)%Z;
         Scrapers.point := Some (262 # 4) |} ]
  = ([ {| Scrapers.game_id := "MIA@BUF"; Scrapers.row_player := strip " Stefon Diggs ";
          Scrapers.team := EmptyString; Scrapers.row_market := "receiving_yards";
          Scrapers.line := 131 # 2; Scrapers.odds_over := Some (-115)%Z;
          Scrapers.odds_under := Some (-105)%Z; Scrapers.book := "fanduel" |} ], []).
Proof.
  apply (proj1 (over_under_pair_rows "MIA@BUF" "fanduel" "receiving_yards"
                  " Stefon Diggs " None (-115) (-105) (131 # 2) (262 # 4) eq_refl)).
  reflexivity.
Defined.

(** ** More on the devigger, the stake and the pricer *)

(** X28.  On two non-negative probabilities with a positive sum,
    [devig_two_way] returns two numbers of [[0,1]] that add up to one and
    keep the ratio of the inputs; it never raises a side when the inputs
    sum to at least one, and applying it again changes nothing. *)
Theorem devig_two_way_normalises (p_a p_b : Q) :
  0 <= p_a -> 0 <= p_b -> 0 < p_a + p_b ->
  exists a b,
    Io.devig_two_way p_a p_b = (Some a, Some b) /\
    a + b == 1 /\
    (0 <= a /\ a <= 1) /\ (0 <= b /\ b <= 1) /\
    a * p_b == b * p_a /\
    (1 <= p_a + p_b -> a <= p_a /\ b <= p_b) /\
    exists a' b', Io.devig_two_way a b = (Some a', Some b') /\ a' == a /\ b' == b.
Proof.
  intros Ha Hb Hs.
  assert (Hdev : forall x y, 0 < x + y ->
             Io.devig_two_way x y = (Some (x / (x + y)), Some (y / (x + y)))).
  { intros x y H. unfold Io.devig_two_way. cmp_cases; [exfalso; lra | reflexivity]. }
  rewrite (Hdev p_a p_b Hs).
  assert (Hsum : p_a / (p_a + p_b) + p_b / (p_a + p_b) == 1) by (field; lra).
  assert (Ha0 : 0 <= p_a / (p_a + p_b)) by (apply Qle_shift_div_l; lra).
  assert (Hb0 : 0 <= p_b / (p_a + p_b)) by (apply Qle_shift_div_l; lra).
  do 2 eexists. split; [reflexivity |].
  split; [exact Hsum |].
  split; [split; lra |]. split; [split; lra |].
  split; [field; lra |].
  split.
  - intros H1. split; apply Qle_shift_div_r; try lra; nra.
  - assert (Hs' : 0 < p_a / (p_a + p_b) + p_b / (p_a + p_b)) by lra.
    rewrite (Hdev _ _ Hs'). do 2 eexists. split; [reflexivity |].
    split; rewrite Hsum; field; lra.
Qed.

Lemma devig_two_way_normalises_witness :
  exists a b,
    Io.devig_two_way (6 # 11) (10 # 21) = (Some a, Some b) /\
    a + b == 1 /\
    (0 <= a /\ a <= 1) /\ (0 <= b /\ b <= 1) /\
    a * (10 # 21) == b * (6 # 11) /\
    (1 <= (6 # 11) + (10 # 21) -> a <= 6 # 11 /\ b <= 10 # 21) /\
    exists a' b', Io.devig_two_way a b = (Some a', Some b') /\ a' == a /\ b' == b.
Proof.
  apply (devig_two_way_normalises (6 # 11) (10 # 21)); [discriminate | discriminate | reflexivity].
Defined.

(** X29.  At a fixed non-zero price the Kelly fraction of [kelly.py] never
    decreases when the win probability increases, before and after the
    cap. *)
Theorem kelly_monotone_in_p (p1 p2 price cap : Q) :
  ~ price == 0 -> p1 <= p2 ->
  exists k1 k2 c1 c2,
    Kelly.kelly_fraction p1 price = Some k1 /\
    Kelly.kelly_fraction p2 price = Some k2 /\
    Kelly.capped_kelly p1 price cap = Some c1 /\
    Kelly.capped_kelly p2 price cap = Some c2 /\
    k1 <= k2 /\ c1 <= c2.
Proof.
  intros Hnz Hp.
  unfold Kelly.capped_kelly.
  rewrite (kelly_fraction_value p1 price Hnz), (kelly_fraction_value p2 price Hnz).
  pose proof (profit_multiplier_pos price Hnz) as Hb.
  set (b := Spec.profit_multiplier price) in *.
  assert (Hf : forall p, (b * p - (1 - p)) / b == p - (1 - p) / b)
    by (intros p; field; lra).
  assert (Hmono : (b * p1 - (1 - p1)) / b <= (b * p2 - (1 - p2)) / b).
  { rewrite !Hf.
    assert (Hq : (1 - p2) / b <= (1 - p1) / b).
    { apply Qle_shift_div_l; [exact Hb |].
      assert (He : (1 - p2) / b * b == 1 - p2) by (field; lra). rewrite He. lra. }
    lra. }
  set (f1 := (b * p1 - (1 - p1)) / b) in *.
  set (f2 := (b * p2 - (1 - p2)) / b) in *.
  eexists _, _, _, _. repeat (split; [reflexivity |]).
  assert (Hk : pymax 0 f1 <= pymax 0 f2) by (unfold pymax; cmp_cases; lra).
  split; [exact Hk |].
  unfold pymin. cmp_cases; lra.
Qed.

Lemma kelly_monotone_in_p_witness :
  exists k1 k2 c1 c2,
    Kelly.kelly_fraction (11 # 20) (-110) = Some k1 /\
    Kelly.kelly_fraction (3 # 5) (-110) = Some k2 /\
    Kelly.capped_kelly (11 # 20) (-110) (1 # 20) = Some c1 /\
    Kelly.capped_kelly (3 # 5) (-110) (1 # 20) = Some c2 /\
    k1 <= k2 /\ c1 <= c2.
Proof.
  apply (kelly_monotone_in_p (11 # 20) (3 # 5) (-110) (1 # 20)); discriminate.
Defined.

(** X30.  With a CDF that does not decrease, raising the line never
    raises the Over probability of [yardage_probs] and never lowers the
    Under probability; and an sd below the floor [1e-6], zero or negative
    included, is priced exactly like an sd of [1e-6]. *)
Theorem yardage_probs_monotone (norm_cdf : Q -> Q) (mean sd line1 line2 : Q) :
  (forall x y, x <= y -> norm_cdf x <= norm_cdf y) ->
  line1 <= line2 ->
  fst (Markets.yardage_probs norm_cdf mean sd line2)
    <= fst (Markets.yardage_probs norm_cdf mean sd line1) /\
  snd (Markets.yardage_probs norm_cdf mean sd line1)
    <= snd (Markets.yardage_probs norm_cdf mean sd line2) /\
  (sd < eps ->
   Markets.yardage_probs norm_cdf mean sd line1
     = Markets.yardage_probs norm_cdf mean eps line1).
Proof.
  intros Hmono Hline. rewrite !yardage_probs_value. cbn [fst snd].
  pose proof (pymax_spec sd eps) as (_ & Hfloor & _).
  assert (Heps : 0 < eps) by reflexivity.
  assert (Hs : 0 < pymax sd eps) by lra.
  assert (Hz : (line1 - mean) / pymax sd eps <= (line2 - mean) / pymax sd eps).
  { apply Qle_shift_div_l; [exact Hs |].
    assert (He : (line1 - mean) / pymax sd eps * pymax sd eps == line1 - mean)
      by (field; lra).
    rewrite He. lra. }
  specialize (Hmono _ _ Hz).
  split; [lra |]. split; [exact Hmono |].
  intros Hsd.
  assert (H1 : pymax sd eps = eps)
    by (unfold pymax; cmp_cases; [reflexivity | exfalso; lra]).
  assert (H2 : pymax eps eps = eps) by reflexivity.
  now rewrite H1, H2.
Qed.

Lemma yardage_probs_monotone_witness :
  fst (Markets.yardage_probs (fun z => clip 0 1 ((1 # 2) + z / 4)) 60 20 (121 # 2))
    <= fst (Markets.yardage_probs (fun z => clip 0 1 ((1 # 2) + z / 4)) 60 20 (111 # 2)) /\
  snd (Markets.yardage_probs (fun z => clip 0 1 ((1 # 2) + z / 4)) 60 20 (111 # 2))
    <= snd (Markets.yardage_probs (fun z => clip 0 1 ((1 # 2) + z / 4)) 60 20 (121 # 2)) /\
  (20 < eps ->
   Markets.yardage_probs (fun z => clip 0 1 ((1 # 2) + z / 4)) 60 20 (111 # 2)
     = Markets.yardage_probs (fun z => clip 0 1 ((1 # 2) + z / 4)) 60 eps (111 # 2)).
Proof.
  apply (yardage_probs_monotone (fun z => clip 0 1 ((1 # 2) + z / 4)) 60 20
           (111 # 2) (121 # 2)).
  - intros x y Hxy. unfold clip. cmp_cases; try lra.
    all: try (assert (x / 4 <= y / 4) by (apply Qle_shift_div_l; [reflexivity |];
              assert (He : x / 4 * 4 == x) by (field; discriminate); rewrite He; lra); lra).
  - discriminate.
Defined.
